(** * Quiz Bowl Elite party server (server.js): model and verified properties

    The server keeps two global maps ([parties], [playerToParty]) and reacts
    to socket.io events and to its own timers.  The handlers of server.js are
    embedded below as functions on an explicit [World]; one handler run is one
    [step].  The layers, bottom up:

    - JavaScript helpers on strings and values ([trim], [toLowerCase], ...);
    - the data model: [Player], [GameState], [Party], [World];
    - the handlers, named as in server.js;
    - runs of the server ([reachable]);
    - the notions the properties are stated with, and the properties.

    What the model takes from the environment: a socket is its id; the
    random draws of [generatePartyCode] and the clock reading of start_game
    come with the event; a broadcast is recorded with the code of the room it
    goes to (who is in a room is socket.io's business); text is ASCII. *)

From Stdlib Require Import ZArith QArith Ascii String.
From stdpp Require Import base option list gmap strings pretty sorting.

Local Open Scope stdpp_scope.
Local Open Scope string_scope.
Local Open Scope list_scope.

(** ** JavaScript helpers *)

Module JS.

(** Values a client can put in a payload field, as far as the handlers
    distinguish them.  Numbers are the integer-valued ones: [buzzPoint] is a
    character offset.  On an integer [n] and a string length [m] (lengths
    are below 2^53) the double quotient [n / m] is below [0.5] exactly when
    the rational quotient is, so the scoring comparison is evaluated over
    [Q]. *)
Inductive Value :=
| Undefined
| Null
| Boolean (b : bool)
| Number (n : Z)
| Str (s : string).

(** Truthiness of a string: only the empty string is falsy. *)
Definition truthy (s : string) : bool := negb (s =? "").

(** [x || 0] on a number. *)
Definition or_zero (n : Z) : Z := if (n =? 0)%Z then 0%Z else n.

(** [String.prototype.trim] on ASCII text. *)
Fixpoint trimStart (s : string) : string :=
  match s with
  | String c s' => if Ascii.is_space c then trimStart s' else s
  | EmptyString => EmptyString
  end.

Definition trimEnd (s : string) : string :=
  String.rev (trimStart (String.rev s)).

Definition trim (s : string) : string := trimEnd (trimStart s).

(** [String.prototype.toLowerCase] on ASCII text. *)
Definition lower_char (c : ascii) : ascii :=
  let n := nat_of_ascii c in
  if (65 <=? n)%nat && (n <=? 90)%nat then ascii_of_nat (n + 32) else c.

Fixpoint toLowerCase (s : string) : string :=
  match s with
  | String c s' => String (lower_char c) (toLowerCase s')
  | EmptyString => EmptyString
  end.

(** [arr[i]] for a signed index: [undefined] outside the array. *)
Definition index {A} (l : list A) (i : Z) : option A :=
  if (i <? 0)%Z then None else l !! Z.to_nat i.

End JS.

(** ** Data model *)

(** A player object.  [socketId] always equals [id]. *)
Record Player := mkPlayer {
  id : string;
  name : string;
  score : Z;
  isHost : bool;
  socketId : string
}.

Global Instance Player_inhabited : Inhabited Player :=
  populate (mkPlayer "" "" 0 false "").

Global Instance Player_eq_dec : EqDecision Player.
Proof. solve_decision. Defined.

Inductive Status := active | finished.

Global Instance Status_eq_dec : EqDecision Status.
Proof. solve_decision. Defined.

(** [attempted] is a JavaScript [Set]: no duplicates, insertion order (the
    order shows in the [buzz_unlocked] payload).  A [Set] object is always
    truthy, so the [if (!attempted)] guards of the source never fire. *)
Record GameState := mkGameState {
  status : Status;
  buzzedPlayerId : option string;
  buzzPoint : Z;
  attempted : list string;
  lastIncorrectPlayerId : option string;
  startTime : Z;
  buzzLocked : bool
}.

(** A question is opaque except for its [question] text. *)
Record Question := mkQuestion {
  question : option string
}.

Definition Settings := list (string * string).

(** A party object.  Player objects are shared between [host] and [players]
    (and mutated through either), so the party holds references into
    [objects], the store of the player objects created for this party:
    create_party and join_party allocate them and no other party ever
    refers to them.  [pendingAdvanceTimeout] is a timer handle. *)
Record Party := mkParty {
  code : string;
  host : nat;
  players : list nat;
  settings : option Settings;
  gameState : option GameState;
  questions : list Question;
  currentQuestionIndex : Z;
  pendingAdvanceTimeout : option nat;
  objects : gmap nat Player
}.

(** What a timer does when it fires: the two closures given to [setTimeout].
    [TimeUpThenAdvance] captures the party object as well as the code. *)
Inductive TimerAction :=
| Advance (partyCode : string)
| TimeUpThenAdvance (partyCode : string) (party : nat).

Record Timer := mkTimer {
  delay : Z;
  action : TimerAction
}.

(** The server: the two global maps, the party objects they refer to, and the
    pending timers of the event loop. *)
Record World := mkWorld {
  parties : gmap string nat;
  playerToParty : gmap string string;
  heap : gmap nat Party;
  timers : gmap nat Timer;
  timerCount : nat
}.

Definition initial : World := mkWorld ∅ ∅ ∅ ∅ 0.

(** ** Replies and broadcasts *)

(** The [error] strings of the source, under the names of the
    specification. *)
Inductive Error :=
| InvalidName
| InvalidInput
| PartyNotFound
| PartyFull
| NameTaken
| NotInParty
| NotHostStart
| InvalidQuestions
| GameNotActive
| AlreadyBuzzed
| BuzzLocked
| AlreadyAttempted
| NotYourBuzz
| PlayerNotFound
| NotHostAdvance.

Definition message (e : Error) : string :=
  match e with
  | InvalidName => "Invalid player name"
  | InvalidInput => "Invalid party code or player name"
  | PartyNotFound => "Party not found"
  | PartyFull => "Party is full (max 8 players)"
  | NameTaken => "Player name already taken in this party"
  | NotInParty => "Not in a party"
  | NotHostStart => "Only host can start game"
  | InvalidQuestions => "Invalid questions"
  | GameNotActive => "Game not active"
  | AlreadyBuzzed => "Someone already buzzed"
  | BuzzLocked => "Buzzing is temporarily locked"
  | AlreadyAttempted => "You have already attempted this question"
  | NotYourBuzz => "You did not buzz in"
  | PlayerNotFound => "Player not found"
  | NotHostAdvance => "Only host can advance"
  end.

(** The argument of the acknowledgement callback. *)
Inductive Reply :=
| failure (e : Error)
| success
| created (partyCode playerId : string)
| joined (playerId : string) (party : Party)
| advanced (isFinished : bool).

(** The party-scoped broadcasts, with their payloads as sent.  In
    [party_updated] the [gameState] field is absent ([None]), or present and
    possibly [null]. *)
Module Msg.
Inductive Message :=
| party_updated (partyCode : string) (roster : list Player)
    (state : option (option GameState))
| game_started (partyCode : string) (qs : list Question) (s : Settings)
| player_buzzed (playerId playerName : string) (point : JS.Value)
| reading_progress (charIndex : JS.Value)
| answer_typing (playerName : string) (answerText : JS.Value)
| answer_submitted (playerId playerName : string) (isCorrect : bool)
    (points newScore : Z) (roster : list Player)
| buzz_unlocked (playerName excludedPlayerId : string) (tried : list string)
| time_up
| next_question (questionIndex : Z)
| game_finished (roster : list Player)
| player_disconnected (playerId : string) (remainingPlayers : list Player)
    (newHost : Player).
End Msg.

(** [callback(r)] to the calling socket, [io.to('party:' + room).emit(m)]. *)
Inductive Output :=
| callback (socket : string) (r : Reply)
| emit (room : string) (m : Msg.Message).

(** ** Field updates *)

Definition set_score (v : Z) (p : Player) : Player :=
  mkPlayer (id p) (name p) v (isHost p) (socketId p).

Definition add_score (v : Z) (p : Player) : Player :=
  set_score (score p + v) p.

Definition set_isHost (b : bool) (p : Player) : Player :=
  mkPlayer (id p) (name p) (score p) b (socketId p).

Definition set_host (r : nat) (p : Party) : Party :=
  mkParty (code p) r (players p) (settings p) (gameState p) (questions p)
    (currentQuestionIndex p) (pendingAdvanceTimeout p) (objects p).

Definition set_players (l : list nat) (p : Party) : Party :=
  mkParty (code p) (host p) l (settings p) (gameState p) (questions p)
    (currentQuestionIndex p) (pendingAdvanceTimeout p) (objects p).

Definition set_gameState (g : option GameState) (p : Party) : Party :=
  mkParty (code p) (host p) (players p) (settings p) g (questions p)
    (currentQuestionIndex p) (pendingAdvanceTimeout p) (objects p).

Definition set_currentQuestionIndex (i : Z) (p : Party) : Party :=
  mkParty (code p) (host p) (players p) (settings p) (gameState p)
    (questions p) i (pendingAdvanceTimeout p) (objects p).

Definition set_pendingAdvanceTimeout (h : option nat) (p : Party) : Party :=
  mkParty (code p) (host p) (players p) (settings p) (gameState p)
    (questions p) (currentQuestionIndex p) h (objects p).

Definition set_objects (o : gmap nat Player) (p : Party) : Party :=
  mkParty (code p) (host p) (players p) (settings p) (gameState p)
    (questions p) (currentQuestionIndex p) (pendingAdvanceTimeout p) o.

Definition set_parties (m : gmap string nat) (w : World) : World :=
  mkWorld m (playerToParty w) (heap w) (timers w) (timerCount w).

Definition set_playerToParty (m : gmap string string) (w : World) : World :=
  mkWorld (parties w) m (heap w) (timers w) (timerCount w).

Definition set_heap (m : gmap nat Party) (w : World) : World :=
  mkWorld (parties w) (playerToParty w) m (timers w) (timerCount w).

(** Writing a field of the party object [l]. *)
Definition store (l : nat) (p : Party) (w : World) : World :=
  set_heap (<[l := p]> (heap w)) w.

(** ** Reading the state *)

(** The player object behind a reference. *)
Definition deref (p : Party) (r : nat) : Player := objects p !!! r.

(** The roster as it is serialised into a payload. *)
Definition roster (p : Party) : list Player := deref p <$> players p.

(** [getParty(partyCode)]: the party object (its reference and contents). *)
Definition getParty (w : World) (partyCode : string) : option (nat * Party) :=
  l ← parties w !! partyCode; p ← heap w !! l; Some (l, p).

(** [party.players.find(p => p.id === playerId)]: a reference to the first
    roster entry with that id. *)
Definition getPlayer (p : Party) (playerId : string) : option nat :=
  List.find (λ r, id (deref p r) =? playerId) (players p).

(** [playerToParty.get(socket.id)] followed by the [if (!partyCode)] test
    that every handler makes: the code the socket is indexed to, when truthy. *)
Definition partyOf (w : World) (sid : string) : option string :=
  match playerToParty w !! sid with
  | Some c => if JS.truthy c then Some c else None
  | None => None
  end.

(** ** Timers *)

(** [setTimeout(action, delay)]: a fresh handle. *)
Definition setTimeout (a : TimerAction) (d : Z) (w : World) : nat * World :=
  let h := timerCount w in
  (h, mkWorld (parties w) (playerToParty w) (heap w)
        (<[h := mkTimer d a]> (timers w)) (S h)).

Definition clearTimeout (h : nat) (w : World) : World :=
  mkWorld (parties w) (playerToParty w) (heap w) (delete h (timers w))
    (timerCount w).

(** ** The handlers

    A handler maps the world to the next world and the outputs it produced,
    in order.  [None] means the handler does not complete: an uncaught
    exception, or [generatePartyCode] out of random draws.  The request
    handlers are given their acknowledgement callback by the client, except
    next_question, which tests for it. *)

Definition Result : Type := option (World * list Output).

(** [return callback({ success: false, error })] *)
Definition reject (w : World) (sid : string) (e : Error) : Result :=
  Some (w, [callback sid (failure e)]).

(** [generatePartyCode()]: each draw [d] is [Math.floor(Math.random() * 9000)],
    and the loop draws again while the code is taken. *)
Fixpoint generatePartyCode (draws : list N) (w : World) : option string :=
  match draws with
  | [] => None
  | d :: ds =>
      let c := pretty (1000 + d)%N in
      match parties w !! c with
      | Some _ => generatePartyCode ds w
      | None => Some c
      end
  end.

Definition create_party (sid playerName : string) (draws : list N)
    (w : World) : Result :=
  if negb (JS.truthy playerName) || (JS.trim playerName =? "") then
    reject w sid InvalidName
  else
    match generatePartyCode draws w with
    | None => None
    | Some partyCode =>
        let h := mkPlayer sid (JS.trim playerName) 0 true sid in
        let r := fresh (dom (∅ : gmap nat Player)) in
        let party :=
          mkParty partyCode r [r] None None [] (-1) None {[ r := h ]} in
        let l := fresh (dom (heap w)) in
        let w1 := store l party w in
        let w2 := set_parties (<[partyCode := l]> (parties w1)) w1 in
        let w3 := set_playerToParty (<[sid := partyCode]> (playerToParty w2)) w2 in
        Some (w3, [callback sid (created partyCode sid);
                   emit partyCode (Msg.party_updated partyCode [h] None)])
    end.

(** The acknowledgement of a successful join carries the party object
    itself, [callback({ success: true, playerId, party })].  When the party
    holds a timer handle, that object contains a [Timeout], which socket.io
    cannot encode: the call throws, after the roster and the index have been
    written. *)
Definition join_party (sid partyCode playerName : string) (w : World)
    : Result :=
  if negb (JS.truthy partyCode) || negb (JS.truthy playerName)
     || (JS.trim playerName =? "") then
    reject w sid InvalidInput
  else
    match getParty w partyCode with
    | None => reject w sid PartyNotFound
    | Some (l, party) =>
        if (8 <=? length (players party))%nat then reject w sid PartyFull
        else if existsb (λ p, JS.toLowerCase (name p)
                              =? JS.toLowerCase (JS.trim playerName))
                  (roster party)
        then reject w sid NameTaken
        else
          let player := mkPlayer sid (JS.trim playerName) 0 false sid in
          let r := fresh (dom (objects party)) in
          let party1 := set_objects (<[r := player]> (objects party)) party in
          let party2 := set_players (players party1 ++ [r]) party1 in
          let w1 := store l party2 w in
          let w2 := set_playerToParty (<[sid := partyCode]> (playerToParty w1)) w1 in
          match pendingAdvanceTimeout party2 with
          | Some _ => None
          | None =>
              Some (w2, [callback sid (joined sid party2);
                         emit partyCode
                           (Msg.party_updated partyCode (roster party2)
                              (Some (gameState party2)))])
          end
    end.

(** The part leave_party and disconnect have in common:
    [party.players = party.players.filter(p => p.id !== socket.id)]. *)
Definition without (sid : string) (party : Party) : list nat :=
  filter (λ r, id (deref party r) ≠ sid) (players party).

(** [party.host = party.players[0]; party.host.isHost = true], run when the
    host left a roster that is not empty. *)
Definition assign_new_host (party : Party) : Party :=
  match players party with
  | r :: _ =>
      set_objects (alter (set_isHost true) r (objects party)) (set_host r party)
  | [] => party
  end.

Definition leave_party (sid : string) (w : World) : Result :=
  match partyOf w sid with
  | None => reject w sid NotInParty
  | Some partyCode =>
      match getParty w partyCode with
      | None => reject w sid PartyNotFound
      | Some (l, party) =>
          let party1 := set_players (without sid party) party in
          let w1 := store l party1 w in
          let w2 := set_playerToParty (delete sid (playerToParty w1)) w1 in
          if (length (players party1) =? 0)%nat then
            Some (set_parties (delete partyCode (parties w2)) w2,
                  [callback sid success])
          else
            let party2 :=
              if id (deref party1 (host party1)) =? sid
              then assign_new_host party1 else party1 in
            Some (store l party2 w2,
                  [callback sid success;
                   emit partyCode
                     (Msg.party_updated partyCode (roster party2) None)])
      end
  end.

Definition disconnect (sid : string) (w : World) : Result :=
  match partyOf w sid with
  | None => Some (w, [])
  | Some partyCode =>
      match getParty w partyCode with
      | None => Some (w, [])
      | Some (l, party) =>
          let party1 := set_players (without sid party) party in
          let w1 := store l party1 w in
          let w2 := set_playerToParty (delete sid (playerToParty w1)) w1 in
          if (length (players party1) =? 0)%nat then
            Some (set_parties (delete partyCode (parties w2)) w2, [])
          else
            let party2 :=
              if id (deref party1 (host party1)) =? sid
              then assign_new_host party1 else party1 in
            Some (store l party2 w2,
                  [emit partyCode
                     (Msg.player_disconnected sid (roster party2)
                        (deref party2 (host party2)))])
      end
  end.

(** [party.players.forEach(p => { p.score = 0; })] *)
Definition reset_scores (party : Party) : gmap nat Player :=
  foldl (λ o r, alter (set_score 0) r o) (objects party) (players party).

Definition fresh_gameState (now : Z) : GameState :=
  mkGameState active None 0 [] None now false.

(** [qs] is [None] when the payload's [questions] is not an array, [s] is
    [None] when its [settings] is falsy, [now] is [Date.now()].  The
    pending timer's handle is overwritten, the timer itself is left alone. *)
Definition start_game (sid : string) (qs : option (list Question))
    (s : option Settings) (now : Z) (w : World) : Result :=
  match partyOf w sid with
  | None => reject w sid NotInParty
  | Some partyCode =>
      match getParty w partyCode with
      | None => reject w sid PartyNotFound
      | Some (l, party) =>
          if negb (id (deref party (host party)) =? sid) then
            reject w sid NotHostStart
          else
            match qs with
            | None | Some [] => reject w sid InvalidQuestions
            | Some qs =>
                let party1 :=
                  mkParty (code party) (host party) (players party)
                    (Some (default [] s)) (Some (fresh_gameState now)) qs 0
                    None (objects party) in
                let party2 := set_objects (reset_scores party1) party1 in
                Some (store l party2 w,
                      [callback sid success;
                       emit partyCode
                         (Msg.game_started partyCode qs (default [] s))])
            end
      end
  end.

(** [if (party.gameState.buzzedPlayerId)] *)
Definition someone_buzzed (gs : GameState) : bool :=
  match buzzedPlayerId gs with
  | Some p => JS.truthy p
  | None => false
  end.

(** [attempted.add(sid)] *)
Definition attempted_add (sid : string) (tried : list string) : list string :=
  if decide (sid ∈ tried) then tried else tried ++ [sid].

(** [getPlayer(partyCode, socket.id)?.name || 'Unknown'] *)
Definition name_or_unknown (party : Party) (sid : string) : string :=
  match getPlayer party sid with
  | Some r => if JS.truthy (name (deref party r)) then name (deref party r)
              else "Unknown"
  | None => "Unknown"
  end.

(** [point] is the payload's [buzzPoint] ([Undefined] when there is no
    payload). *)
Definition buzz (sid : string) (point : JS.Value) (w : World) : Result :=
  match partyOf w sid with
  | None => reject w sid NotInParty
  | Some partyCode =>
      match getParty w partyCode with
      | None => reject w sid GameNotActive
      | Some (l, party) =>
          match gameState party with
          | None => reject w sid GameNotActive
          | Some gs =>
              if someone_buzzed gs then reject w sid AlreadyBuzzed
              else if buzzLocked gs then reject w sid BuzzLocked
              else if decide (sid ∈ attempted gs) then
                reject w sid AlreadyAttempted
              else
                let gs1 :=
                  mkGameState (status gs) (Some sid)
                    (match point with JS.Number n => n | _ => 0%Z end)
                    (attempted gs) None (startTime gs) (buzzLocked gs) in
                let party1 := set_gameState (Some gs1) party in
                Some (store l party1 w,
                      [callback sid success;
                       emit partyCode
                         (Msg.player_buzzed sid (name_or_unknown party1 sid)
                            point)])
          end
      end
  end.

Definition reading_progress (sid : string) (charIndex : JS.Value)
    (w : World) : Result :=
  match partyOf w sid with
  | None => Some (w, [])
  | Some partyCode => Some (w, [emit partyCode (Msg.reading_progress charIndex)])
  end.

Definition answer_typing (sid : string) (answerText : JS.Value)
    (w : World) : Result :=
  match partyOf w sid with
  | None => Some (w, [])
  | Some partyCode =>
      match getParty w partyCode with
      | None => Some (w, [])
      | Some (l, party) =>
          match getPlayer party sid with
          | None => Some (w, [])
          | Some r =>
              Some (w, [emit partyCode
                          (Msg.answer_typing (name (deref party r)) answerText)])
          end
      end
  end.

(** [curQ && curQ.question ? curQ.question.length : 1] *)
Definition questionLen (party : Party) : Z :=
  match JS.index (questions party) (currentQuestionIndex party) with
  | Some curQ =>
      match question curQ with
      | Some text =>
          if JS.truthy text then Z.of_nat (String.length text) else 1%Z
      | None => 1%Z
      end
  | None => 1%Z
  end.

(** The points of an answer, computed from the stored [buzzPoint]. *)
Definition computedPoints (isCorrect : bool) (party : Party) (gs : GameState)
    : Z :=
  if isCorrect then
    let point := JS.or_zero (buzzPoint gs) in
    if Qlt_le_dec (inject_Z point / inject_Z (Z.max 1 (questionLen party)))
         (1 # 2)
    then 15%Z else 10%Z
  else (-5)%Z.

Definition submit_answer (sid : string) (isCorrect : bool) (w : World)
    : Result :=
  match partyOf w sid with
  | None => reject w sid NotInParty
  | Some partyCode =>
      match getParty w partyCode with
      | None => reject w sid GameNotActive
      | Some (l, party) =>
          match gameState party with
          | None => reject w sid GameNotActive
          | Some gs =>
              if negb (bool_decide (buzzedPlayerId gs = Some sid)) then
                reject w sid NotYourBuzz
              else
                match getPlayer party sid with
                | None => reject w sid PlayerNotFound
                | Some r =>
                    let points := computedPoints isCorrect party gs in
                    let party1 :=
                      set_objects (alter (add_score points) r (objects party))
                        party in
                    let player := deref party1 r in
                    let outs :=
                      [callback sid success;
                       emit partyCode
                         (Msg.answer_submitted sid (name player) isCorrect points
                            (score player) (roster party1))] in
                    if isCorrect then
                      let gs1 :=
                        mkGameState (status gs) (buzzedPlayerId gs)
                          (buzzPoint gs) (attempted gs)
                          (lastIncorrectPlayerId gs) (startTime gs) true in
                      let '(h, w1) := setTimeout (Advance partyCode) 5000 w in
                      let party2 :=
                        set_pendingAdvanceTimeout (Some h)
                          (set_gameState (Some gs1) party1) in
                      Some (store l party2 w1, outs)
                    else
                      let tried := attempted_add sid (attempted gs) in
                      let gs1 :=
                        mkGameState (status gs) None 0 tried
                          (lastIncorrectPlayerId gs) (startTime gs)
                          (buzzLocked gs) in
                      let party2 := set_gameState (Some gs1) party1 in
                      let unlocked :=
                        emit partyCode
                          (Msg.buzz_unlocked (name player) sid tried) in
                      if (length (players party2) <=? length tried)%nat then
                        let '(h, w1) :=
                          setTimeout (TimeUpThenAdvance partyCode l) 1800 w in
                        Some (store l
                                (set_pendingAdvanceTimeout (Some h) party2) w1,
                              outs ++ [unlocked])
                      else Some (store l party2 w, outs ++ [unlocked])
                end
          end
      end
  end.

(** [party.players.sort((a, b) => b.score - a.score)]: a stable sort, by
    descending score, of the roster array itself. *)
Fixpoint insert_by_score (party : Party) (r : nat) (l : list nat) : list nat :=
  match l with
  | [] => [r]
  | r' :: l' =>
      if (score (deref party r) <? score (deref party r'))%Z
      then r' :: insert_by_score party r l'
      else r :: l
  end.

Definition sort_by_score (party : Party) (l : list nat) : list nat :=
  foldr (insert_by_score party) [] l.

(** [advanceToNextQuestion(partyCode)].  The index is incremented before the
    game state is written; with no game state that write throws. *)
Definition advanceToNextQuestion (partyCode : string) (w : World) : Result :=
  match getParty w partyCode with
  | None => Some (w, [])
  | Some (l, party) =>
      let '(w1, party1) :=
        match pendingAdvanceTimeout party with
        | Some h => (clearTimeout h w, set_pendingAdvanceTimeout None party)
        | None => (w, party)
        end in
      let party2 :=
        set_currentQuestionIndex (currentQuestionIndex party1 + 1) party1 in
      match gameState party2 with
      | None => None
      | Some gs =>
          let gs1 :=
            mkGameState (status gs) None 0 [] None (startTime gs) false in
          if (Z.of_nat (length (questions party2))
              <=? currentQuestionIndex party2)%Z then
            let gs2 :=
              mkGameState finished None 0 [] None (startTime gs) false in
            let party3 :=
              set_players (sort_by_score party2 (players party2))
                (set_gameState (Some gs2) party2) in
            Some (store l party3 w1,
                  [emit partyCode (Msg.game_finished (roster party3))])
          else
            let party3 := set_gameState (Some gs1) party2 in
            Some (store l party3 w1,
                  [emit partyCode
                     (Msg.next_question (currentQuestionIndex party3))])
      end
  end.

(** [ack] tells whether the client passed a callback. *)
Definition next_question (sid : string) (ack : bool) (w : World) : Result :=
  let reply r := if ack then [callback sid r] else [] in
  match partyOf w sid with
  | None => Some (w, reply (failure NotInParty))
  | Some partyCode =>
      match getParty w partyCode with
      | None => Some (w, reply (failure GameNotActive))
      | Some (l, party) =>
          match gameState party with
          | None => Some (w, reply (failure GameNotActive))
          | Some _ =>
              if negb (id (deref party (host party)) =? sid) then
                Some (w, reply (failure NotHostAdvance))
              else
                '(w1, outs) ← advanceToNextQuestion partyCode w;
                let isFinished :=
                  match heap w1 !! l with
                  | Some party1 =>
                      (Z.of_nat (length (questions party1))
                       <=? currentQuestionIndex party1)%Z
                  | None => false
                  end in
                Some (w1, outs ++ reply (advanced isFinished))
          end
      end
  end.

(** A pending timer fires: it leaves the event loop and its closure runs.
    The outer closure of the incorrect-answer path broadcasts [time_up] and
    only then arms the advance, storing the handle in the party object it
    captured. *)
Definition timer_fires (h : nat) (w : World) : Result :=
  match timers w !! h with
  | None => Some (w, [])
  | Some t =>
      let w1 := clearTimeout h w in
      match action t with
      | Advance partyCode => advanceToNextQuestion partyCode w1
      | TimeUpThenAdvance partyCode l =>
          let '(h1, w2) := setTimeout (Advance partyCode) 5000 w1 in
          Some (set_heap
                  (alter (set_pendingAdvanceTimeout (Some h1)) l (heap w2)) w2,
                [emit partyCode Msg.time_up])
      end
  end.

(** ** Runs of the server *)

(** What the event loop can deliver: a socket.io event of a connected socket
    with its payload, or a timer that fires.  The events are the requests of
    the interface: the payload is an object whose fields have the expected
    type (names and codes are strings), and the client passes an
    acknowledgement callback wherever the handler calls one without testing
    for it.  A request without its payload or callback makes the handler
    throw on the first use; such requests are not events of the model. *)
Inductive Event :=
| CreateParty (sid playerName : string) (draws : list N)
| JoinParty (sid partyCode playerName : string)
| LeaveParty (sid : string)
| StartGame (sid : string) (qs : option (list Question))
    (s : option Settings) (now : Z)
| Buzz (sid : string) (point : JS.Value)
| ReadingProgress (sid : string) (charIndex : JS.Value)
| AnswerTyping (sid : string) (answerText : JS.Value)
| SubmitAnswer (sid : string) (isCorrect : bool)
| NextQuestion (sid : string) (ack : bool)
| Disconnect (sid : string)
| TimerFires (h : nat).

Definition step (w : World) (e : Event) : Result :=
  match e with
  | CreateParty sid playerName draws => create_party sid playerName draws w
  | JoinParty sid partyCode playerName => join_party sid partyCode playerName w
  | LeaveParty sid => leave_party sid w
  | StartGame sid qs s now => start_game sid qs s now w
  | Buzz sid point => buzz sid point w
  | ReadingProgress sid charIndex => reading_progress sid charIndex w
  | AnswerTyping sid answerText => answer_typing sid answerText w
  | SubmitAnswer sid isCorrect => submit_answer sid isCorrect w
  | NextQuestion sid ack => next_question sid ack w
  | Disconnect sid => disconnect sid w
  | TimerFires h => timer_fires h w
  end.

(** Running a sequence of events; the outputs are collected in order. *)
Fixpoint run (w : World) (es : list Event) : Result :=
  match es with
  | [] => Some (w, [])
  | e :: es' =>
      '(w1, o1) ← step w e;
      '(w2, o2) ← run w1 es';
      Some (w2, o1 ++ o2)
  end.

(** The worlds the server can be in. *)
Inductive reachable : World → Prop :=
| reachable_initial : reachable initial
| reachable_step w e w' outs :
    reachable w → step w e = Some (w', outs) → reachable w'.

(** * Notions for the properties *)

(** ** Observing a world *)

(** The party a code is registered to, in one look. *)
Definition partyAt (w : World) (partyCode : string) : option Party :=
  snd <$> getParty w partyCode.

(** The replies sent to one socket, in order. *)
Definition replies_to (sid : string) (outs : list Output) : list Reply :=
  omap (λ o, match o with
             | callback s r => if s =? sid then Some r else None
             | emit _ _ => None
             end) outs.

(** The world after a run from the initial world. *)
Definition after (es : list Event) : World :=
  match run initial es with
  | Some (w, _) => w
  | None => initial
  end.

(** ** Invariants of reachable worlds *)

(** The current buzzer has not used up an attempt on this question. *)
Definition game_ok (gs : GameState) : Prop :=
  ∀ p, buzzedPlayerId gs = Some p → p ∉ attempted gs.

(** The roster holds distinct, allocated player objects, the host is one of
    them, and the host is the one object whose [isHost] flag is set. *)
Record roster_ok (party : Party) : Prop := mk_roster_ok {
  roster_alloc : ∀ r, r ∈ players party → is_Some (objects party !! r);
  roster_nodup : NoDup (players party);
  roster_host : players party ≠ [] → host party ∈ players party;
  roster_host_flag :
    players party ≠ [] → isHost (deref party (host party)) = true;
  roster_only_host :
    ∀ r, r ∈ players party → isHost (deref party r) = true → r = host party
}.

Definition party_ok (party : Party) : Prop :=
  roster_ok party ∧ ∀ gs, gameState party = Some gs → game_ok gs.

(** Some roster entry carries the socket id [sid]. *)
Definition has_id (party : Party) (sid : string) : Prop :=
  ∃ r, r ∈ players party ∧ id (deref party r) = sid.

(** Every party object is well formed; a registered party is registered
    under its own code and has players; an indexed socket is on the roster
    of the registered party it is indexed to. *)
Record world_ok (w : World) : Prop := mk_world_ok {
  ok_heap : ∀ l party, heap w !! l = Some party → party_ok party;
  ok_registered :
    ∀ c l, parties w !! c = Some l →
      ∃ party, heap w !! l = Some party ∧ code party = c ∧ players party ≠ [];
  ok_indexed :
    ∀ sid c, playerToParty w !! sid = Some c →
      ∃ l party, getParty w c = Some (l, party) ∧ has_id party sid
}.

(** Two object stores that agree on allocation, ids and host flags. *)
Definition same_flags (o o' : gmap nat Player) : Prop :=
  ∀ r, (is_Some (o !! r) → is_Some (o' !! r))
       ∧ isHost (o' !!! r) = isHost (o !!! r)
       ∧ id (o' !!! r) = id (o !!! r).

(** ** What joining and departing do to a party *)

(** The party after a successful join_party of [sid] under the name [nm]:
    a new object at the end of the roster. *)
Definition joined_party (sid nm : string) (party : Party) : Party :=
  let r := fresh (dom (objects party)) in
  let party1 :=
    set_objects (<[r := mkPlayer sid nm 0 false sid]> (objects party)) party in
  set_players (players party1 ++ [r]) party1.

(** The party after [sid] left or disconnected: the roster without [sid]
    and, when the host was [sid], the first remaining player made host. *)
Definition departed (sid : string) (party : Party) : Party :=
  let party1 := set_players (without sid party) party in
  if id (deref party1 (host party1)) =? sid
  then assign_new_host party1 else party1.

(** What leave_party and disconnect leave behind when [sid] is indexed to
    the party [l], registered as [c]. *)
Definition after_departure (sid c : string) (l : nat) (party : Party)
    (w : World) : World :=
  mkWorld
    (if decide (without sid party = []) then delete c (parties w)
     else parties w)
    (delete sid (playerToParty w))
    (<[l := departed sid party]> (heap w))
    (timers w) (timerCount w).

(** ** The specification's scoring, and notions of the statements *)

(** The Scoring Engine in the words of the specification: -5 for an
    incorrect answer; for a correct one 15 if
    [buzzPoint / max(1, questionLength) < 0.5], else 10. *)
Definition spec_points (isCorrect : bool) (point questionLength : Z) : Z :=
  if isCorrect then
    if Qlt_le_dec (inject_Z point / inject_Z (Z.max 1 questionLength)) (1 # 2)
    then 15%Z else 10%Z
  else (-5)%Z.

Global Arguments spec_points : simpl never.

(** The question being asked, in the words of the specification: the
    question at position [currentQuestionIndex] of the list, counting from
    0; there is none before a game and past the last question. *)
Definition currentQuestion (party : Party) : option Question :=
  if (0 <=? currentQuestionIndex party)%Z
  then nth_error (questions party) (Z.to_nat (currentQuestionIndex party))
  else None.

(** The character length of the current question's text; 0 when there is
    no current question or it has no text. *)
Definition currentQuestionLength (party : Party) : Z :=
  match currentQuestion party with
  | Some curQ =>
      match question curQ with
      | Some text => Z.of_nat (String.length text)
      | None => 0%Z
      end
  | None => 0%Z
  end.

(** Some member's name equals the trimmed new name up to case. *)
Definition name_taken (party : Party) (playerName : string) : Prop :=
  ∃ p, p ∈ roster party
       ∧ JS.toLowerCase (name p) = JS.toLowerCase (JS.trim playerName).

(** The events that leave a recorded buzz of [p] in the party object [l]
    alone.  Three kinds of event end it: a question advance of that party
    (next_question from its host while it has a game state, or the firing of
    an advance timer whose code is registered to it), a start_game of that
    party (from its host, with a non-empty array of questions), and an
    answer submitted from [p]'s own socket while it is indexed to that
    party.  Every other event is quiet: requests that are refused, events of
    other parties, and the timer that only broadcasts [time_up]. *)
Definition quiet (l : nat) (p : string) (w : World) (e : Event) : Prop :=
  match e with
  | StartGame sid qs _ _ =>
      ∀ c party, partyOf w sid = Some c → getParty w c = Some (l, party) →
        id (deref party (host party)) ≠ sid ∨ qs = None ∨ qs = Some []
  | NextQuestion sid _ =>
      ∀ c party, partyOf w sid = Some c → getParty w c = Some (l, party) →
        gameState party = None ∨ id (deref party (host party)) ≠ sid
  | TimerFires h =>
      ∀ t c, timers w !! h = Some t → action t = Advance c →
        parties w !! c ≠ Some l
  | SubmitAnswer sid _ =>
      sid = p → ∀ c, partyOf w sid = Some c → parties w !! c ≠ Some l
  | _ => True
  end.

(** A run of events each of which is quiet in the world it is handled in. *)
Fixpoint quiet_run (l : nat) (p : string) (w : World) (es : list Event)
    : Prop :=
  match es with
  | [] => True
  | e :: es' =>
      quiet l p w e
      ∧ ∀ w1 o1, step w e = Some (w1, o1) → quiet_run l p w1 es'
  end.

(** ** Scenarios *)

(** A question of 40 characters. *)
Definition one_question : list Question :=
  [mkQuestion (Some "Which planet is known as the red planet?")].

Definition two_questions : list Question :=
  [mkQuestion (Some "Which planet is known as the red planet?");
   mkQuestion (Some "Who wrote Hamlet?")].

(** Ann creates party 1234. *)
Definition ann_creates : list Event := [CreateParty "a" "Ann" [234%N]].

(** Ann creates party 1234 and Bob joins. *)
Definition ann_and_bob : list Event :=
  [CreateParty "a" "Ann" [234%N]; JoinParty "b" "1234" "Bob"].

(** Ann creates party 1234 and seven more players join. *)
Definition eight_players : list Event :=
  [CreateParty "a" "Ann" [234%N];
   JoinParty "s1" "1234" "Bob"; JoinParty "s2" "1234" "Cid";
   JoinParty "s3" "1234" "Dee"; JoinParty "s4" "1234" "Eve";
   JoinParty "s5" "1234" "Fay"; JoinParty "s6" "1234" "Gus";
   JoinParty "s7" "1234" "Hal"].

(** Ann creates party 1234 and starts a one-question game. *)
Definition ann_starts : list Event :=
  [CreateParty "a" "Ann" [234%N];
   StartGame "a" (Some one_question) None 1000].

(** Ann creates party 1234, starts a one-question game and buzzes at
    offset 3 of its 40 characters. *)
Definition ann_buzzes : list Event :=
  [CreateParty "a" "Ann" [234%N];
   StartGame "a" (Some one_question) None 1000;
   Buzz "a" (JS.Number 3)].

(** Ann creates party 1234, starts a one-question game, buzzes and answers
    correctly. *)
Definition ann_answers_correctly : list Event :=
  [CreateParty "a" "Ann" [234%N];
   StartGame "a" (Some one_question) None 1000;
   Buzz "a" (JS.Number 3);
   SubmitAnswer "a" true].

(** Ann creates party 1234, starts a one-question game and advances past
    the last question. *)
Definition ann_finishes : list Event :=
  [CreateParty "a" "Ann" [234%N];
   StartGame "a" (Some one_question) None 1000;
   NextQuestion "a" true].

(** Ann creates party 1234, Bob joins, Ann starts a game and Bob buzzes. *)
Definition bob_buzzes : list Event :=
  [CreateParty "a" "Ann" [234%N];
   JoinParty "b" "1234" "Bob";
   StartGame "a" (Some two_questions) None 1000;
   Buzz "b" (JS.Number 3)].

(** Ann and Bob both answer incorrectly, which arms the [time_up] timer 0;
    Ann starts a new game while it is pending, Bob buzzes and disconnects. *)
Definition bob_departs_before_time_up : list Event :=
  [CreateParty "a" "Ann" [234%N];
   JoinParty "b" "1234" "Bob";
   StartGame "a" (Some two_questions) None 1000;
   Buzz "a" (JS.Number 3); SubmitAnswer "a" false;
   Buzz "b" (JS.Number 5); SubmitAnswer "b" false;
   StartGame "a" (Some two_questions) None 2000;
   Buzz "b" (JS.Number 3);
   Disconnect "b"].

(** Events that leave Bob's buzz in party 1234 alone: a start_game that is
    refused, a next_question from a socket in no party, the [time_up] timer
    of the party, and a new party that starts its own game. *)
Definition around_the_buzz : list Event :=
  [StartGame "a" None None 3000;
   NextQuestion "z" true;
   TimerFires 0;
   CreateParty "c" "Cy" [5%N];
   StartGame "c" (Some one_question) None 4000].

(** Ann, Bob and Cid join in this order; Cid scores in a one-question game,
    the game finishes, and Ann leaves. *)
Definition ann_leaves_after_game : list Event :=
  [CreateParty "a" "Ann" [234%N];
   JoinParty "b" "1234" "Bob";
   JoinParty "c" "1234" "Cid";
   StartGame "a" (Some one_question) None 1000;
   Buzz "c" (JS.Number 3);
   SubmitAnswer "c" true;
   NextQuestion "a" true;
   LeaveParty "a"].

(** ** Notions for the further properties *)

(** The events that cannot register the code [c]: all but a create_party
    one of whose draws gives [c]. *)
Definition not_drawn (c : string) (e : Event) : Prop :=
  match e with
  | CreateParty _ _ draws => Forall (λ d, pretty (1000 + d)%N ≠ c) draws
  | _ => True
  end.


(** Ann's correct answer arms the advance timer of party 1234; she
    disconnects, which deletes the party, and Bob's new party draws the code
    1234 again. *)
Definition code_reused : list Event :=
  [CreateParty "a" "Ann" [234%N];
   StartGame "a" (Some one_question) None 1000;
   Buzz "a" (JS.Number 3);
   SubmitAnswer "a" true;
   Disconnect "a";
   CreateParty "b" "Bob" [234%N]].

(** The events within one question of one game: everything except a
    question advance (a firing timer, next_question) and start_game. *)
Definition same_question (e : Event) : Prop :=
  match e with
  | StartGame _ _ _ _ | NextQuestion _ _ | TimerFires _ => False
  | _ => True
  end.

(** Ann, Bob and Cid are in party 1234; in a one-question game Cid buzzes
    and answers correctly. *)
Definition cid_scores : list Event :=
  [CreateParty "a" "Ann" [234%N];
   JoinParty "b" "1234" "Bob";
   JoinParty "c" "1234" "Cid";
   StartGame "a" (Some one_question) None 1000;
   Buzz "c" (JS.Number 3);
   SubmitAnswer "c" true].

(** A party code as the specification describes it: 4 ASCII digits. *)
Definition four_digits (s : string) : bool :=
  (String.length s =? 4)%nat
  && forallb (λ a, bool_decide (is_Some (Ascii.is_nat a)))
       (list_ascii_of_string s).

(** The party object an event is about: the one registered under the code
    the calling socket is indexed to (for join_party, under the code of the
    request); for a firing timer, the one registered under the code its
    closure holds, or the object it captured. *)
Definition touches (w : World) (e : Event) (l : nat) : Prop :=
  match e with
  | CreateParty _ _ _ | ReadingProgress _ _ | AnswerTyping _ _ => False
  | JoinParty _ c _ => parties w !! c = Some l
  | LeaveParty sid | StartGame sid _ _ _ | Buzz sid _ | SubmitAnswer sid _
  | NextQuestion sid _ | Disconnect sid =>
      ∃ c, partyOf w sid = Some c ∧ parties w !! c = Some l
  | TimerFires h =>
      ∃ t, timers w !! h = Some t
           ∧ match action t with
             | Advance c => parties w !! c = Some l
             | TimeUpThenAdvance _ l' => l' = l
             end
  end.

(** Ann creates party 1234, starts a one-question game, advances past the
    last question and buzzes in the finished game. *)
Definition buzz_after_finish : list Event :=
  [CreateParty "a" "Ann" [234%N];
   StartGame "a" (Some one_question) None 1000;
   NextQuestion "a" true;
   Buzz "a" (JS.Number 5)].

(** The names on a roster, lower-cased as join_party compares them. *)
Definition names (party : Party) : list string :=
  (λ p, JS.toLowerCase (name p)) <$> roster party.


(** * Properties *)

Lemma reachable_run w es w' outs :
  reachable w → run w es = Some (w', outs) → reachable w'.
Proof.
  intros Hw. revert w Hw outs. induction es as [|e es IH]; intros w Hw outs H.
  - by simplify_eq/=.
  - simpl in H. destruct (step w e) as [[w1 o1]|] eqn:He; [|done].
    simpl in H. destruct (run w1 es) as [[w2 o2]|] eqn:Hr; [|done].
    simplify_eq/=. eapply IH; [|done]. by eapply reachable_step.
Qed.

(** ** The invariants hold in every reachable world *)

Lemma same_flags_refl o : same_flags o o.
Proof. by intros r. Qed.

Lemma same_flags_trans o1 o2 o3 :
  same_flags o1 o2 → same_flags o2 o3 → same_flags o1 o3.
Proof.
  intros H12 H23 r. destruct (H12 r) as (?&?&?), (H23 r) as (?&?&?).
  split_and!; [tauto|congruence..].
Qed.

Lemma id_alter (f : Player → Player) r (o : gmap nat Player) r' :
  (∀ x, id (f x) = id x) → id (alter f r o !!! r') = id (o !!! r').
Proof.
  intros Hi. rewrite !lookup_total_alt, lookup_alter.
  destruct (decide (r = r')) as [->|]; [|done].
  destruct (o !! r') as [x|]; simpl; [apply Hi|done].
Qed.

Lemma same_flags_alter (f : Player → Player) r o :
  (∀ x, isHost (f x) = isHost x) → (∀ x, id (f x) = id x) →
  same_flags o (alter f r o).
Proof.
  intros Hf Hi r'. rewrite !lookup_total_alt, lookup_alter.
  destruct (decide (r = r')) as [->|]; [|done].
  destruct (o !! r') as [x|]; simpl; [|done].
  split_and!; [by eauto|apply Hf|apply Hi].
Qed.

Lemma same_flags_reset_scores party :
  same_flags (objects party) (reset_scores party).
Proof.
  unfold reset_scores. generalize (objects party) as o.
  induction (players party) as [|r l IH]; intros o; simpl.
  - apply same_flags_refl.
  - eapply same_flags_trans; [|apply IH]. by apply same_flags_alter.
Qed.

Lemma roster_ok_same_flags party party' :
  host party' = host party → players party' = players party →
  same_flags (objects party) (objects party') →
  roster_ok party → roster_ok party'.
Proof.
  intros Hh Hp Hf [Ha Hn Hin Hflag Honly].
  assert (∀ r, isHost (deref party' r) = isHost (deref party r)) as Hd.
  { intros r. apply (Hf r). }
  split; rewrite ?Hp, ?Hh.
  - intros r Hr. apply (Hf r). auto.
  - done.
  - done.
  - intros Hne. rewrite Hd. auto.
  - intros r Hr. rewrite Hd. auto.
Qed.

Lemma has_id_same_flags party party' sid :
  players party' = players party →
  same_flags (objects party) (objects party') →
  has_id party sid → has_id party' sid.
Proof.
  intros Hp Hf (r & Hr & Hid). exists r. rewrite Hp. split; [done|].
  rewrite <- Hid. apply (Hf r).
Qed.

(** Sorting permutes the roster. *)
Lemma insert_by_score_perm party r l : insert_by_score party r l ≡ₚ r :: l.
Proof.
  induction l as [|r' l IH]; simpl; [done|].
  case_match; [|done]. rewrite IH. apply Permutation_swap.
Qed.

Lemma sort_by_score_perm party l : sort_by_score party l ≡ₚ l.
Proof.
  induction l as [|r l IH]; simpl; [done|].
  rewrite insert_by_score_perm. by rewrite IH.
Qed.

Lemma roster_ok_perm party party' :
  host party' = host party → players party' ≡ₚ players party →
  objects party' = objects party →
  roster_ok party → roster_ok party'.
Proof.
  intros Hh Hp Ho [Ha Hn Hin Hflag Honly].
  assert (∀ r, deref party' r = deref party r) as Hd.
  { intros r. unfold deref. by rewrite Ho. }
  assert (players party' ≠ [] → players party ≠ []) as Hne.
  { intros Hne Hnil. rewrite Hnil in Hp. by apply Permutation_nil_r in Hp. }
  split; rewrite ?Hh, ?Ho.
  - intros r Hr. rewrite Hp in Hr. auto.
  - by rewrite Hp.
  - intros ?. rewrite Hp. auto.
  - intros ?. rewrite Hd. auto.
  - intros r Hr. rewrite Hp in Hr. rewrite Hd. auto.
Qed.

Lemma has_id_perm party party' sid :
  players party' ≡ₚ players party → objects party' = objects party →
  has_id party sid → has_id party' sid.
Proof.
  intros Hp Ho (r & Hr & Hid). exists r. rewrite Hp. split; [done|].
  unfold deref. by rewrite Ho.
Qed.

Lemma getParty_Some w c l party :
  getParty w c = Some (l, party) ↔
  parties w !! c = Some l ∧ heap w !! l = Some party.
Proof.
  unfold getParty. split.
  - intros H. destruct (parties w !! c) as [l0|]; simpl in H; [|done].
    destruct (heap w !! l0) as [p0|] eqn:Hp; simpl in H; [|done].
    by simplify_eq.
  - intros [-> H]. simpl. by rewrite H.
Qed.

Lemma partyOf_Some w sid c :
  partyOf w sid = Some c → playerToParty w !! sid = Some c.
Proof.
  unfold partyOf. destruct (playerToParty w !! sid); [|done].
  case_match; naive_solver.
Qed.

(** *** The roster under join_party *)

Lemma fresh_not_in_roster party :
  roster_ok party → fresh (dom (objects party)) ∉ players party.
Proof.
  intros Hok Hin. apply (roster_alloc _ Hok) in Hin.
  apply elem_of_dom in Hin. by apply is_fresh in Hin.
Qed.

Lemma deref_joined_old sid nm party r :
  r ∈ players party → roster_ok party →
  deref (joined_party sid nm party) r = deref party r.
Proof.
  intros Hr Hok. unfold deref, joined_party; simpl.
  apply lookup_total_insert_ne. intros <-.
  by apply (fresh_not_in_roster party).
Qed.

Lemma deref_joined_new sid nm party :
  deref (joined_party sid nm party) (fresh (dom (objects party)))
  = mkPlayer sid nm 0 false sid.
Proof. unfold deref, joined_party; simpl. apply lookup_total_insert_eq. Qed.

Lemma roster_ok_joined sid nm party :
  players party ≠ [] → roster_ok party → roster_ok (joined_party sid nm party).
Proof.
  intros Hne Hok. pose proof (fresh_not_in_roster party Hok) as Hfresh.
  destruct Hok as [Ha Hn Hin Hflag Honly].
  assert (roster_ok party) as Hok by (by split).
  split.
  - intros r Hr. simpl in *. apply elem_of_app in Hr as [Hr|Hr].
    + apply lookup_insert_is_Some. right. split; [|by auto].
      intros <-. done.
    + apply list_elem_of_singleton in Hr as ->.
      apply lookup_insert_is_Some. by left.
  - simpl. apply NoDup_app. split_and!; [done| |apply NoDup_singleton].
    intros r Hr ->%list_elem_of_singleton. done.
  - intros _. simpl. apply elem_of_app. left. auto.
  - intros _. change (host (joined_party sid nm party)) with (host party).
    rewrite deref_joined_old; auto.
  - intros r Hr. change (host (joined_party sid nm party)) with (host party).
    simpl in Hr. apply elem_of_app in Hr as [Hr|Hr].
    + rewrite deref_joined_old; auto.
    + apply list_elem_of_singleton in Hr as ->.
      by rewrite deref_joined_new.
Qed.

Lemma has_id_joined_old sid nm party sid' :
  roster_ok party → has_id party sid' → has_id (joined_party sid nm party) sid'.
Proof.
  intros Hok (r & Hr & Hid). exists r. split.
  - simpl. apply elem_of_app. by left.
  - by rewrite deref_joined_old.
Qed.

Lemma has_id_joined_new sid nm party : has_id (joined_party sid nm party) sid.
Proof.
  exists (fresh (dom (objects party))). split.
  - simpl. apply elem_of_app. right. by apply list_elem_of_singleton.
  - by rewrite deref_joined_new.
Qed.

(** *** The roster under leave_party and disconnect *)

Lemma elem_of_without sid party r :
  r ∈ without sid party ↔ id (deref party r) ≠ sid ∧ r ∈ players party.
Proof. unfold without. by rewrite list_elem_of_filter. Qed.

Lemma players_departed sid party :
  players (departed sid party) = without sid party.
Proof.
  unfold departed, assign_new_host; simpl.
  destruct (String.eqb _ sid); [|done]. by destruct (without sid party).
Qed.

Lemma id_deref_departed sid party r :
  id (deref (departed sid party) r) = id (deref party r).
Proof.
  unfold departed, assign_new_host; simpl.
  destruct (String.eqb _ sid); [|done].
  destruct (without sid party) as [|r0 rest]; [done|].
  unfold deref; simpl. by apply id_alter.
Qed.

Lemma has_id_departed sid party sid' :
  sid' ≠ sid → has_id party sid' → has_id (departed sid party) sid'.
Proof.
  intros Hne (r & Hr & Hid). exists r. rewrite players_departed.
  rewrite id_deref_departed. split; [|done].
  apply elem_of_without. split; [congruence|done].
Qed.

Lemma not_has_id_departed sid party : ¬ has_id (departed sid party) sid.
Proof.
  intros (r & Hr & Hid). rewrite players_departed in Hr.
  rewrite id_deref_departed in Hid. apply elem_of_without in Hr. tauto.
Qed.

Lemma roster_ok_departed sid party :
  roster_ok party → roster_ok (departed sid party).
Proof.
  intros [Ha Hn Hin Hflag Honly]. unfold departed.
  set (party1 := set_players (without sid party) party).
  assert (∀ r, r ∈ without sid party → r ∈ players party) as Hsub.
  { intros r Hr. by apply elem_of_without in Hr as [_ ?]. }
  assert (players party1 ≠ [] → players party ≠ []) as Hne.
  { simpl. intros Hne Hnil. apply Hne. unfold without. by rewrite Hnil. }
  destruct (id (deref party1 (host party1)) =? sid) eqn:Hhost.
  - (* the host left *)
    apply String.eqb_eq in Hhost. unfold assign_new_host.
    destruct (players party1) as [|r0 rest] eqn:Hrem.
    { split; rewrite ?Hrem; try done; [|constructor|];
        by intros r ?%elem_of_nil. }
    simpl in Hrem.
    assert (is_Some (objects party !! r0)) as [x0 Hx0].
    { apply Ha, Hsub. rewrite Hrem. left. }
    assert (∀ r, r ≠ r0 →
      deref (set_objects (alter (set_isHost true) r0 (objects party1))
               (set_host r0 party1)) r = deref party r) as Hother.
    { intros r Hr. unfold deref; simpl. by apply lookup_total_alter_ne. }
    split; simpl.
    + intros r Hr. by apply lookup_alter_is_Some, Ha, Hsub.
    + by apply NoDup_filter.
    + intros _. rewrite Hrem. left.
    + intros _. unfold deref; simpl. rewrite lookup_total_alter_eq.
      by rewrite Hx0.
    + intros r Hr Hflag'. destruct (decide (r = r0)) as [|Hr0]; [done|].
      rewrite Hother in Hflag' by done.
      apply elem_of_without in Hr as [Hid Hr].
      apply Honly in Hflag'; [|done]. subst r. done.
  - (* somebody else left *)
    apply String.eqb_neq in Hhost. simpl in Hhost.
    split; simpl.
    + intros r Hr. auto.
    + by apply NoDup_filter.
    + intros Hrem. apply elem_of_without. split; [done|]. apply Hin.
      by apply Hne.
    + intros Hrem. apply Hflag. by apply Hne.
    + intros r Hr. apply Honly. auto.
Qed.

(** *** The world under a write to one party object *)

Lemma world_ok_store w l party party' :
  world_ok w → heap w !! l = Some party →
  party_ok party' → code party' = code party →
  (players party ≠ [] → players party' ≠ []) →
  (∀ sid, has_id party sid → has_id party' sid) →
  world_ok (store l party' w).
Proof.
  intros [Hheap Hreg Hidx] Hl Hok Hcode Hne Hids. split; simpl.
  - intros l0 p0. rewrite lookup_insert. case_decide; [|by eauto].
    by intros [= <-].
  - intros c l0 Hc. destruct (Hreg c l0 Hc) as (p0 & Hp0 & Hc0 & Hne0).
    destruct (decide (l0 = l)) as [->|Hl0].
    + assert (p0 = party) as -> by congruence.
      exists party'. rewrite lookup_insert_eq.
      split_and!; [done|congruence|auto].
    + exists p0. by rewrite lookup_insert_ne.
  - intros sid c Hc. destruct (Hidx sid c Hc) as (l0 & p0 & Hg & Hid).
    apply getParty_Some in Hg as [Hc0 Hp0].
    destruct (decide (l0 = l)) as [->|Hne0].
    + assert (p0 = party) as -> by congruence.
      exists l, party'. split; [|by auto].
      apply getParty_Some. simpl. by rewrite lookup_insert_eq.
    + exists l0, p0. split; [|done].
      apply getParty_Some. simpl. by rewrite lookup_insert_ne.
Qed.

(** [world_ok] does not look at the timers. *)
Lemma world_ok_timers w tm n :
  world_ok w →
  world_ok (mkWorld (parties w) (playerToParty w) (heap w) tm n).
Proof. intros [Hheap Hreg Hidx]. by split. Qed.

Lemma world_ok_index w sid c l party :
  world_ok w → getParty w c = Some (l, party) → has_id party sid →
  world_ok (set_playerToParty (<[sid := c]> (playerToParty w)) w).
Proof.
  intros [Hheap Hreg Hidx] Hg Hid. split; simpl; [done..|].
  intros sid' c'. rewrite lookup_insert. case_decide; [|by eauto].
  intros [= <-]. subst sid'. eauto.
Qed.

(** *** The world after a departure *)

Lemma departed_empty sid party :
  without sid party = [] → departed sid party = set_players [] party.
Proof.
  intros Hnil. unfold departed, assign_new_host. simpl. rewrite Hnil.
  by destruct (String.eqb _ sid).
Qed.

Lemma leave_party_departure sid c l party w :
  partyOf w sid = Some c → getParty w c = Some (l, party) →
  leave_party sid w =
    Some (after_departure sid c l party w,
          callback sid success ::
          if decide (without sid party = []) then []
          else [emit c (Msg.party_updated c (roster (departed sid party))
                          None)]).
Proof.
  intros Hc Hg. unfold leave_party. rewrite Hc, Hg.
  fold (departed sid party). cbn [players set_players].
  unfold after_departure, store, set_playerToParty, set_parties, set_heap.
  cbn [parties playerToParty heap timers timerCount].
  destruct (decide (without sid party = [])) as [Hnil|Hne].
  - rewrite Hnil. simpl. by rewrite departed_empty.
  - destruct (without sid party) eqn:Hw; [done|]. simpl.
    by rewrite insert_insert_eq.
Qed.

Lemma disconnect_departure sid c l party w :
  partyOf w sid = Some c → getParty w c = Some (l, party) →
  disconnect sid w =
    Some (after_departure sid c l party w,
          if decide (without sid party = []) then []
          else [emit c (Msg.player_disconnected sid
                          (roster (departed sid party))
                          (deref (departed sid party)
                             (host (departed sid party))))]).
Proof.
  intros Hc Hg. unfold disconnect. rewrite Hc, Hg.
  fold (departed sid party). cbn [players set_players].
  unfold after_departure, store, set_playerToParty, set_parties, set_heap.
  cbn [parties playerToParty heap timers timerCount].
  destruct (decide (without sid party = [])) as [Hnil|Hne].
  - rewrite Hnil. simpl. by rewrite departed_empty.
  - destruct (without sid party) eqn:Hw; [done|]. simpl.
    by rewrite insert_insert_eq.
Qed.

Lemma world_ok_after_departure sid c l party w :
  world_ok w → getParty w c = Some (l, party) →
  world_ok (after_departure sid c l party w).
Proof.
  intros [Hheap Hreg Hidx] [Hc Hl]%getParty_Some.
  destruct (Hheap l party Hl) as [Hroster Hgame].
  destruct (Hreg c l Hc) as (p0 & Hp0 & Hcode & _). simplify_eq.
  assert (∀ c0 l0, parties w !! c0 = Some l0 → l0 = l → c0 = code party)
    as Hinj.
  { intros c0 l0 Hc0 ->. destruct (Hreg c0 l Hc0) as (p0 & Hp0 & ? & _).
    by simplify_eq. }
  split; simpl.
  - intros l0 p0. rewrite lookup_insert. case_decide; [|by eauto].
    intros [= <-]. split; [by apply roster_ok_departed|].
    unfold departed, assign_new_host; simpl.
    destruct (String.eqb _ sid); [|done]. by destruct (without sid party).
  - intros c0 l0 Hc0.
    assert (parties w !! c0 = Some l0 ∧ (l0 = l → without sid party ≠ []))
      as [Hold Hne].
    { case_decide as Hnil; [|done].
      apply lookup_delete_Some in Hc0 as [Hne Hc0]. split; [done|].
      intros ->. destruct Hne. symmetry. by eapply Hinj. }
    destruct (Hreg c0 l0 Hold) as (p0 & Hp0 & Hcode0 & Hne0).
    destruct (decide (l0 = l)) as [->|Hl0].
    + assert (p0 = party) as -> by congruence.
      exists (departed sid party). rewrite players_departed.
      rewrite lookup_insert_eq. split_and!; [done| |by auto].
      unfold departed, assign_new_host; simpl.
      destruct (String.eqb _ sid); [|done]. by destruct (without sid party).
    + exists p0. by rewrite lookup_insert_ne.
  - intros sid' c0 Hc0. apply lookup_delete_Some in Hc0 as [Hsid Hc0].
    destruct (Hidx sid' c0 Hc0) as (l0 & p0 & [Hr0 Hp0]%getParty_Some & Hid).
    destruct (decide (l0 = l)) as [->|Hne0].
    + assert (p0 = party) as -> by congruence.
      pose proof (has_id_departed sid party sid' ltac:(done) Hid) as Hid'.
      exists l, (departed sid party). split; [|done].
      apply getParty_Some. simpl. rewrite lookup_insert_eq. split; [|done].
      case_decide as Hnil; [|done].
      destruct Hid' as (r & Hr & _). rewrite players_departed, Hnil in Hr.
      by apply elem_of_nil in Hr.
    + exists l0, p0. split; [|done].
      apply getParty_Some. simpl. rewrite lookup_insert_ne by done.
      split; [|done]. case_decide; [|done].
      rewrite lookup_delete_ne; [done|]. intros <-.
      rewrite Hc in Hr0. by simplify_eq.
Qed.

(** *** Every handler keeps the invariant *)

Lemma world_ok_initial : world_ok initial.
Proof. split; simpl; intros *; by rewrite lookup_empty. Qed.

Lemma generatePartyCode_free draws w c :
  generatePartyCode draws w = Some c → parties w !! c = None.
Proof.
  induction draws as [|d ds IH]; simpl; [done|].
  destruct (parties w !! pretty (1000 + d)%N) eqn:Hd; [done|].
  by intros [= <-].
Qed.

Lemma world_ok_create_party sid playerName draws w w' outs :
  world_ok w → create_party sid playerName draws w = Some (w', outs) →
  world_ok w'.
Proof.
  intros Hok. unfold create_party, reject.
  case_match; [by intros [= <- _]|].
  destruct (generatePartyCode draws w) as [c|] eqn:Hgen; [|done].
  apply generatePartyCode_free in Hgen. intros [= <- _].
  destruct Hok as [Hheap Hreg Hidx].
  set (r := fresh (dom (∅ : gmap nat Player))).
  set (h := mkPlayer sid (JS.trim playerName) 0 true sid).
  set (party := mkParty c r [r] None None [] (-1) None {[ r := h ]}).
  set (l := fresh (dom (heap w))).
  assert (heap w !! l = None) as Hl.
  { apply not_elem_of_dom. apply is_fresh. }
  assert (deref party r = h) as Hr.
  { unfold deref; simpl. apply lookup_total_singleton_eq. }
  split; simpl.
  - intros l0 p0. rewrite lookup_insert. case_decide; [|by eauto].
    intros [= <-]. split; [|done]. split; simpl.
    + intros r0 ->%list_elem_of_singleton. by rewrite lookup_singleton_eq.
    + apply NoDup_singleton.
    + intros _. by apply list_elem_of_singleton.
    + intros _. by rewrite Hr.
    + by intros r0 ->%list_elem_of_singleton _.
  - intros c0 l0. rewrite lookup_insert. case_decide as Hc0.
    + intros [= <-]. subst c0. exists party. by rewrite lookup_insert_eq.
    + intros Hc1. destruct (Hreg c0 l0 Hc1) as (p0 & Hp0 & ? & ?).
      exists p0. rewrite lookup_insert_ne; [done|]. intros <-. congruence.
  - intros sid0 c0. rewrite lookup_insert. case_decide as Hs.
    + intros [= <-]. exists l, party. split.
      * apply getParty_Some; simpl. by rewrite !lookup_insert_eq.
      * exists r. split; [by apply list_elem_of_singleton|by rewrite Hr].
    + intros Hc0.
      destruct (Hidx sid0 c0 Hc0) as (l0 & p0 & [Hr0 Hp0]%getParty_Some & ?).
      exists l0, p0. split; [|done]. apply getParty_Some; simpl.
      rewrite !lookup_insert_ne; [done|intros <-; congruence
                                 |intros <-; congruence].
Qed.

Lemma world_ok_join_party sid partyCode playerName w w' outs :
  world_ok w → join_party sid partyCode playerName w = Some (w', outs) →
  world_ok w'.
Proof.
  intros Hok. unfold join_party, reject.
  case_match; [by intros [= <- _]|].
  destruct (getParty w partyCode) as [[l party]|] eqn:Hg;
    [|by intros [= <- _]].
  case_match; [by intros [= <- _]|]. case_match; [by intros [= <- _]|].
  case_match; [done|].
  fold (joined_party sid (JS.trim playerName) party). intros [= <- _].
  pose proof Hg as [Hc Hl]%getParty_Some.
  destruct (ok_heap _ Hok l party Hl) as [Hroster Hgame].
  destruct (ok_registered _ Hok _ _ Hc) as (p0 & Hp0 & Hcode & Hne).
  assert (p0 = party) as -> by congruence.
  eapply (world_ok_index
            (store l (joined_party sid (JS.trim playerName) party) w)).
  - eapply world_ok_store; [done..| | | |].
    + split; [by apply roster_ok_joined|done].
    + done.
    + intros _. simpl. by destruct (players party).
    + intros sid'. by apply has_id_joined_old.
  - apply getParty_Some. simpl. split; [done|]. apply lookup_insert_eq.
  - apply has_id_joined_new.
Qed.

Lemma world_ok_leave_party sid w w' outs :
  world_ok w → leave_party sid w = Some (w', outs) → world_ok w'.
Proof.
  intros Hok H. destruct (partyOf w sid) as [c|] eqn:Hc.
  - destruct (getParty w c) as [[l party]|] eqn:Hg.
    + rewrite (leave_party_departure _ _ _ _ _ Hc Hg) in H.
      injection H as <- _. by apply world_ok_after_departure.
    + unfold leave_party, reject in H. rewrite Hc, Hg in H. by simplify_eq.
  - unfold leave_party, reject in H. rewrite Hc in H. by simplify_eq.
Qed.

Lemma world_ok_disconnect sid w w' outs :
  world_ok w → disconnect sid w = Some (w', outs) → world_ok w'.
Proof.
  intros Hok H. destruct (partyOf w sid) as [c|] eqn:Hc.
  - destruct (getParty w c) as [[l party]|] eqn:Hg.
    + rewrite (disconnect_departure _ _ _ _ _ Hc Hg) in H.
      injection H as <- _. by apply world_ok_after_departure.
    + unfold disconnect in H. rewrite Hc, Hg in H. by simplify_eq.
  - unfold disconnect in H. rewrite Hc in H. by simplify_eq.
Qed.

Lemma world_ok_start_game sid qs s now w w' outs :
  world_ok w → start_game sid qs s now w = Some (w', outs) → world_ok w'.
Proof.
  intros Hok. unfold start_game, reject.
  destruct (partyOf w sid) as [c|]; [|by intros [= <- _]].
  destruct (getParty w c) as [[l party]|] eqn:Hg; [|by intros [= <- _]].
  case_match; [by intros [= <- _]|].
  destruct qs as [[|q qs]|]; [by intros [= <- _]| |by intros [= <- _]].
  intros [= <- _]. apply getParty_Some in Hg as [Hc Hl].
  destruct (ok_heap _ Hok l party Hl) as [Hroster Hgame].
  eapply world_ok_store; [done..| | | |].
  - split.
    + eapply roster_ok_same_flags; [| | |exact Hroster]; [done..|].
      simpl. apply (same_flags_reset_scores
        (mkParty (code party) (host party) (players party)
           (Some (default [] s)) (Some (fresh_gameState now)) (q :: qs) 0
           None (objects party))).
    + simpl. intros gs [= <-]. by intros p.
  - done.
  - done.
  - intros sid'. apply has_id_same_flags; [done|].
    simpl. apply (same_flags_reset_scores
        (mkParty (code party) (host party) (players party)
           (Some (default [] s)) (Some (fresh_gameState now)) (q :: qs) 0
           None (objects party))).
Qed.

Lemma world_ok_buzz sid point w w' outs :
  world_ok w → buzz sid point w = Some (w', outs) → world_ok w'.
Proof.
  intros Hok. unfold buzz, reject.
  destruct (partyOf w sid) as [c|]; [|by intros [= <- _]].
  destruct (getParty w c) as [[l party]|] eqn:Hg; [|by intros [= <- _]].
  destruct (gameState party) as [gs|] eqn:Hgs; [|by intros [= <- _]].
  case_match; [by intros [= <- _]|]. case_match; [by intros [= <- _]|].
  case_decide as Hatt; [by intros [= <- _]|].
  intros [= <- _]. apply getParty_Some in Hg as [Hc Hl].
  destruct (ok_heap _ Hok l party Hl) as [Hroster Hgame].
  eapply world_ok_store; [done..| | | |]; [|done..].
  split.
  - by eapply roster_ok_same_flags; [..|exact Hroster].
  - simpl. intros ? [= <-] p. simpl. by intros [= <-].
Qed.

Lemma world_ok_submit_answer sid isCorrect w w' outs :
  world_ok w → submit_answer sid isCorrect w = Some (w', outs) → world_ok w'.
Proof.
  intros Hok. unfold submit_answer, reject.
  destruct (partyOf w sid) as [c|]; [|by intros [= <- _]].
  destruct (getParty w c) as [[l party]|] eqn:Hg; [|by intros [= <- _]].
  destruct (gameState party) as [gs|] eqn:Hgs; [|by intros [= <- _]].
  case_match; [by intros [= <- _]|].
  destruct (getPlayer party sid) as [r|]; [|by intros [= <- _]].
  apply getParty_Some in Hg as [Hc Hl].
  destruct (ok_heap _ Hok l party Hl) as [Hroster Hgame].
  assert (same_flags (objects party)
            (alter (add_score (computedPoints isCorrect party gs)) r
               (objects party))) as Hflags.
  { by apply same_flags_alter. }
  destruct isCorrect; [|case_match]; simpl; intros [= <- _].
  - apply (world_ok_store (mkWorld _ _ _ _ _) l party);
      [by apply world_ok_timers|done| |done|done|].
    + split; [by eapply roster_ok_same_flags; [..|exact Hroster]|].
      simpl. intros ? [= <-] p Hp. by apply (Hgame gs).
    + intros sid'. by apply has_id_same_flags.
  - apply (world_ok_store (mkWorld _ _ _ _ _) l party);
      [by apply world_ok_timers|done| |done|done|].
    + split; [by eapply roster_ok_same_flags; [..|exact Hroster]|].
      simpl. by intros ? [= <-] p.
    + intros sid'. by apply has_id_same_flags.
  - apply (world_ok_store w l party); [done..| |done|done|].
    + split; [by eapply roster_ok_same_flags; [..|exact Hroster]|].
      simpl. by intros ? [= <-] p.
    + intros sid'. by apply has_id_same_flags.
Qed.

Lemma world_ok_advanceToNextQuestion partyCode w w' outs :
  world_ok w → advanceToNextQuestion partyCode w = Some (w', outs) →
  world_ok w'.
Proof.
  intros Hok. unfold advanceToNextQuestion.
  destruct (getParty w partyCode) as [[l party]|] eqn:Hg;
    [|by intros [= <- _]].
  apply getParty_Some in Hg as [Hc Hl].
  destruct (ok_heap _ Hok l party Hl) as [Hroster Hgame].
  set (wp := match pendingAdvanceTimeout party with
             | Some h => (clearTimeout h w, set_pendingAdvanceTimeout None party)
             | None => (w, party)
             end).
  assert (world_ok wp.1 ∧ heap wp.1 = heap w
          ∧ host wp.2 = host party ∧ players wp.2 = players party
          ∧ objects wp.2 = objects party ∧ code wp.2 = code party
          ∧ gameState wp.2 = gameState party) as Hwp.
  { unfold wp. destruct (pendingAdvanceTimeout party); simpl; [|done].
    split; [|done]. by apply (world_ok_timers w). }
  destruct wp as [w1 party1]. simpl in Hwp.
  destruct Hwp as (Hok1 & Hheap1 & Hh1 & Hp1 & Ho1 & Hc1 & Hg1).
  simpl. rewrite Hg1.
  destruct (gameState party) as [gs|]; [|done].
  assert (heap w1 !! l = Some party) as Hl1 by (by rewrite Hheap1).
  case_match; intros [= <- _].
  - eapply world_ok_store; [done..| | | |].
    + split; [|simpl; by intros ? [= <-] p].
      eapply (roster_ok_perm party); [done| |done|done].
      simpl. rewrite sort_by_score_perm. by rewrite Hp1.
    + done.
    + simpl. rewrite Hp1. intros Hne Hnil. apply Hne.
      apply Permutation_nil_r. by rewrite <- Hnil, sort_by_score_perm.
    + intros sid'. apply has_id_perm; [|done].
      simpl. rewrite sort_by_score_perm. by rewrite Hp1.
  - eapply world_ok_store; [done..| | | |].
    + split; [|simpl; by intros ? [= <-] p].
      eapply (roster_ok_perm party); [done| |done|done]. simpl. by rewrite Hp1.
    + done.
    + simpl. by rewrite Hp1.
    + intros sid'. apply has_id_perm; [|done]. simpl. by rewrite Hp1.
Qed.

Lemma world_ok_next_question sid ack w w' outs :
  world_ok w → next_question sid ack w = Some (w', outs) → world_ok w'.
Proof.
  intros Hok. unfold next_question.
  destruct (partyOf w sid) as [c|]; [|by intros [= <- _]].
  destruct (getParty w c) as [[l party]|]; [|by intros [= <- _]].
  destruct (gameState party); [|by intros [= <- _]].
  case_match; [by intros [= <- _]|].
  destruct (advanceToNextQuestion c w) as [[w1 o1]|] eqn:Hadv; [|done].
  simpl. intros [= <- _]. by eapply world_ok_advanceToNextQuestion.
Qed.

Lemma alter_lookup_Some {A} (f : A → A) (m : gmap nat A) l x :
  m !! l = Some x → alter f l m = <[l := f x]> m.
Proof.
  intros Hl. apply map_eq. intros i. rewrite lookup_alter, lookup_insert.
  case_decide; [|done]. subst i. by rewrite Hl.
Qed.

Lemma alter_lookup_None {A} (f : A → A) (m : gmap nat A) l :
  m !! l = None → alter f l m = m.
Proof.
  intros Hl. apply map_eq. intros i. rewrite lookup_alter.
  case_decide; [|done]. subst i. by rewrite Hl.
Qed.

Lemma world_ok_timer_fires h w w' outs :
  world_ok w → timer_fires h w = Some (w', outs) → world_ok w'.
Proof.
  intros Hok. unfold timer_fires.
  destruct (timers w !! h) as [t|]; [|by intros [= <- _]].
  destruct (action t) as [c|c l].
  - apply world_ok_advanceToNextQuestion. by apply (world_ok_timers w).
  - simpl. intros [= <- _].
    destruct (heap w !! l) as [party|] eqn:Hl.
    + rewrite (alter_lookup_Some _ _ _ _ Hl).
      destruct (ok_heap _ Hok l party Hl) as [Hroster Hgame].
      apply (world_ok_store (mkWorld _ _ _ _ _) l party);
        [by apply world_ok_timers|done| |done|done|done].
      split; [|done]. by eapply roster_ok_same_flags; [..|exact Hroster].
    + rewrite (alter_lookup_None _ _ _ Hl). by apply (world_ok_timers w).
Qed.

Theorem world_ok_step w e w' outs :
  world_ok w → step w e = Some (w', outs) → world_ok w'.
Proof.
  intros Hok. destruct e; simpl.
  - by apply world_ok_create_party.
  - by apply world_ok_join_party.
  - by apply world_ok_leave_party.
  - by apply world_ok_start_game.
  - by apply world_ok_buzz.
  - unfold reading_progress. destruct (partyOf w sid); by intros [= <- _].
  - unfold answer_typing. destruct (partyOf w sid) as [c|];
      [|by intros [= <- _]].
    destruct (getParty w c) as [[l party]|]; [|by intros [= <- _]].
    destruct (getPlayer party sid); by intros [= <- _].
  - by apply world_ok_submit_answer.
  - by apply world_ok_next_question.
  - by apply world_ok_disconnect.
  - by apply world_ok_timer_fires.
Qed.

Theorem reachable_ok w : reachable w → world_ok w.
Proof.
  induction 1 as [|w e w' outs _ IH Hstep]; [apply world_ok_initial|].
  by eapply world_ok_step.
Qed.

(** ** Runs from the initial world *)

Lemma reachable_after es : reachable (after es).
Proof.
  unfold after. destruct (run initial es) as [[w o]|] eqn:Hrun.
  - by eapply reachable_run; [apply reachable_initial|].
  - apply reachable_initial.
Qed.

(** ** Buzzer and lock (C1) *)

(** C1, as the code has it: in every reachable world, the current buzzer of
    a registered party is not in its attempted set.  (The buzz lock may be
    on while somebody is recorded as the buzzer.) *)
Theorem buzzer_not_attempted w c party gs p :
  reachable w → partyAt w c = Some party → gameState party = Some gs →
  buzzedPlayerId gs = Some p → p ∉ attempted gs.
Proof.
  intros Hw Hparty Hgs Hp. apply reachable_ok in Hw.
  unfold partyAt in Hparty.
  destruct (getParty w c) as [[l party0]|] eqn:Hg; [|done].
  simpl in Hparty. simplify_eq. apply getParty_Some in Hg as [_ Hl].
  destruct (ok_heap _ Hw l party Hl) as [_ Hgame]. by apply (Hgame gs).
Qed.

Lemma buzzer_not_attempted_witness :
  ∃ party gs,
    partyAt (after ann_answers_correctly) "1234" = Some party
    ∧ gameState party = Some gs
    ∧ buzzedPlayerId gs = Some "a"
    ∧ "a" ∉ attempted gs.
Proof.
  eexists _, _. split; [vm_compute; reflexivity|].
  split; [reflexivity|]. split; [reflexivity|].
  eapply (buzzer_not_attempted (after ann_answers_correctly) "1234").
  - apply reachable_after.
  - vm_compute. reflexivity.
  - reflexivity.
  - reflexivity.
Defined.

(** C1, counterexample: after a correct answer the buzzer is still recorded
    and the buzz lock is on, in a reachable world. *)
Lemma locked_while_buzzed :
  reachable (after ann_answers_correctly)
  ∧ ∃ party gs,
      partyAt (after ann_answers_correctly) "1234" = Some party
      ∧ gameState party = Some gs
      ∧ buzzedPlayerId gs = Some "a"
      ∧ buzzLocked gs = true.
Proof.
  split; [apply reachable_after|].
  eexists _, _. split; [vm_compute; reflexivity|]. by split_and!.
Qed.

(** ** Advancing (C2) *)

(** What one advance does to a party with a game state. *)
Lemma advanceToNextQuestion_game w c l party gs :
  getParty w c = Some (l, party) → gameState party = Some gs →
  ∃ w' outs party' gs',
    advanceToNextQuestion c w = Some (w', outs)
    ∧ heap w' = <[l := party']> (heap w)
    ∧ parties w' = parties w ∧ playerToParty w' = playerToParty w
    ∧ timers w' = match pendingAdvanceTimeout party with
                  | Some h => delete h (timers w)
                  | None => timers w
                  end
    ∧ gameState party' = Some gs'
    ∧ currentQuestionIndex party' = (currentQuestionIndex party + 1)%Z
    ∧ questions party' = questions party
    ∧ host party' = host party ∧ objects party' = objects party
    ∧ players party' ≡ₚ players party
    ∧ pendingAdvanceTimeout party' = None
    ∧ status gs' =
        (if (Z.of_nat (length (questions party))
             <=? currentQuestionIndex party + 1)%Z
         then finished else status gs)
    ∧ buzzedPlayerId gs' = None ∧ buzzPoint gs' = 0%Z
    ∧ attempted gs' = [] ∧ buzzLocked gs' = false.
Proof.
  intros Hg Hgs. unfold advanceToNextQuestion. rewrite Hg.
  destruct (pendingAdvanceTimeout party) as [h|] eqn:Hpend; simpl;
    rewrite Hgs; case_match; eexists _, _, _, _;
    (split; [reflexivity|]); (split; [reflexivity|]); simpl;
    rewrite ?Hpend; split_and!; try done; apply sort_by_score_perm.
Qed.

(** C2, as the code has it: once the GameState of a party is finished, each
    further next_question of the host is accepted and acknowledged (it is not
    rejected with GameNotActive); the status stays finished however many
    calls are made, and every call increments the question index. *)
Theorem next_question_after_finish w sid c l party gs n :
  partyOf w sid = Some c → getParty w c = Some (l, party) →
  gameState party = Some gs → status gs = finished →
  id (deref party (host party)) = sid →
  ∃ w' outs party' gs',
    run w (replicate n (NextQuestion sid true)) = Some (w', outs)
    ∧ getParty w' c = Some (l, party')
    ∧ gameState party' = Some gs' ∧ status gs' = finished
    ∧ currentQuestionIndex party'
      = (currentQuestionIndex party + Z.of_nat n)%Z
    ∧ length (replies_to sid outs) = n
    ∧ Forall (λ r, ∃ b, r = advanced b) (replies_to sid outs).
Proof.
  revert w party gs. induction n as [|n IH]; intros w party gs Hc Hg Hgs Hfin Hhost.
  - exists w, [], party, gs. simpl. split_and!; try done. lia.
  - destruct (advanceToNextQuestion_game w c l party gs Hg Hgs)
      as (w1 & o1 & party1 & gs1 & Hadv & Hheap & Hpar & Hidx & _ & Hgs1
          & Hi1 & Hq1 & Hh1 & Ho1 & _ & _ & Hst1 & _).
    assert (status gs1 = finished) as Hfin1.
    { rewrite Hst1, Hfin. by case_match. }
    pose proof Hg as [Hreg Hl]%getParty_Some.
    assert (getParty w1 c = Some (l, party1)) as Hg1.
    { apply getParty_Some. rewrite Hpar, Hheap. split; [done|].
      apply lookup_insert_eq. }
    assert (step w (NextQuestion sid true)
            = Some (w1, o1 ++ [callback sid
                (advanced (Z.of_nat (length (questions party1))
                           <=? currentQuestionIndex party1)%Z)])) as Hstep.
    { simpl. unfold next_question. rewrite Hc, Hg, Hgs, Hhost.
      rewrite String.eqb_refl. simpl. rewrite Hadv. simpl.
      by rewrite Hheap, lookup_insert_eq. }
    destruct (IH w1 party1 gs1) as (w2 & o2 & party2 & gs2 & Hrun & Hg2
                                    & Hgs2 & Hfin2 & Hi2 & Hlen & Hall).
    { unfold partyOf. rewrite Hidx. exact Hc. }
    { done. } { done. } { done. }
    { unfold deref. rewrite Hh1, Ho1. exact Hhost. }
    exists w2, ((o1 ++ [callback sid
                (advanced (Z.of_nat (length (questions party1))
                           <=? currentQuestionIndex party1)%Z)]) ++ o2),
      party2, gs2.
    assert (replies_to sid o1 = []) as Ho1nil.
    { revert Hadv. unfold advanceToNextQuestion. rewrite Hg.
      destruct (pendingAdvanceTimeout party); simpl; rewrite Hgs;
        case_match; by intros [= _ <-]. }
    split_and!; try done.
    + change (replicate (S n) (NextQuestion sid true))
        with (NextQuestion sid true :: replicate n (NextQuestion sid true)).
      cbn [run]. rewrite Hstep. simpl. by rewrite Hrun.
    + rewrite Hi2, Hi1. lia.
    + unfold replies_to in *. rewrite !omap_app, Ho1nil. simpl.
      rewrite String.eqb_refl. simpl. by rewrite Hlen.
    + unfold replies_to in *. rewrite !omap_app, Ho1nil. simpl.
      rewrite String.eqb_refl. simpl. constructor; [by eexists|done].
Qed.

Lemma next_question_after_finish_witness :
  ∃ party gs,
    getParty (after ann_finishes) "1234" = Some (0, party)
    ∧ gameState party = Some gs ∧ status gs = finished
    ∧ ∃ w' outs party' gs',
        run (after ann_finishes) (replicate 2 (NextQuestion "a" true))
        = Some (w', outs)
        ∧ getParty w' "1234" = Some (0, party')
        ∧ gameState party' = Some gs' ∧ status gs' = finished
        ∧ currentQuestionIndex party'
          = (currentQuestionIndex party + Z.of_nat 2)%Z
        ∧ length (replies_to "a" outs) = 2
        ∧ Forall (λ r, ∃ b, r = advanced b) (replies_to "a" outs).
Proof.
  eexists _, _. split; [vm_compute; reflexivity|].
  split; [reflexivity|]. split; [reflexivity|].
  eapply (next_question_after_finish (after ann_finishes) "a" "1234" 0 _ _ 2).
  - vm_compute. reflexivity.
  - vm_compute. reflexivity.
  - reflexivity.
  - reflexivity.
  - reflexivity.
Defined.

(** C2, counterexample: in the finished game the host's next request is
    answered with success (after a second [game_finished] broadcast), and the
    question index moves from 1 to 2. *)
Lemma finished_game_still_advances :
  (∃ party gs,
     partyAt (after ann_finishes) "1234" = Some party
     ∧ gameState party = Some gs ∧ status gs = finished
     ∧ currentQuestionIndex party = 1%Z)
  ∧ ∃ w' party',
      next_question "a" true (after ann_finishes)
      = Some (w', [emit "1234" (Msg.game_finished
                                  [mkPlayer "a" "Ann" 0 true "a"]);
                   callback "a" (advanced true)])
      ∧ partyAt w' "1234" = Some party'
      ∧ currentQuestionIndex party' = 2%Z.
Proof.
  split.
  - eexists _, _. split; [vm_compute; reflexivity|]. by split_and!.
  - eexists _, _. split; [vm_compute; reflexivity|].
    split; [vm_compute; reflexivity|]. reflexivity.
Qed.

(** ** Timers and start_game (C3) *)

(** X2: start_game overwrites the handle in the party object and cancels
    nothing: the pending timers are the same before and after. *)
Lemma start_game_keeps_timers sid qs s now w w' outs :
  start_game sid qs s now w = Some (w', outs) → timers w' = timers w.
Proof.
  unfold start_game, reject.
  destruct (partyOf w sid) as [c|]; [|by intros [= <- _]].
  destruct (getParty w c) as [[l party]|]; [|by intros [= <- _]].
  case_match; [by intros [= <- _]|].
  destruct qs as [[|q qs]|]; by intros [= <- _].
Qed.

(** C3, on the code: the advance timer armed by Ann's correct answer (handle
    0) is still pending after she starts a new two-question game, although
    the new party state holds no handle; when it fires it advances the new
    game from question 0 to question 1. *)
Lemma stale_timer_survives_start_game :
  timers (after ann_answers_correctly) !! 0
  = Some (mkTimer 5000 (Advance "1234"))
  ∧ ∃ w1 o1 party1,
      start_game "a" (Some two_questions) None 2000
        (after ann_answers_correctly) = Some (w1, o1)
      ∧ replies_to "a" o1 = [success]
      ∧ partyAt w1 "1234" = Some party1
      ∧ pendingAdvanceTimeout party1 = None
      ∧ currentQuestionIndex party1 = 0%Z
      ∧ timers w1 !! 0 = Some (mkTimer 5000 (Advance "1234"))
      ∧ ∃ w2 party2,
          timer_fires 0 w1 = Some (w2, [emit "1234" (Msg.next_question 1)])
          ∧ partyAt w2 "1234" = Some party2
          ∧ currentQuestionIndex party2 = 1%Z.
Proof.
  split; [vm_compute; reflexivity|].
  eexists _, _, _. split; [vm_compute; reflexivity|].
  split; [reflexivity|]. split; [vm_compute; reflexivity|].
  split; [reflexivity|]. split; [reflexivity|].
  split; [vm_compute; reflexivity|].
  eexists _, _. split; [vm_compute; reflexivity|].
  split; [vm_compute; reflexivity|]. reflexivity.
Qed.

Lemma start_game_keeps_timers_witness :
  ∃ w' outs,
    start_game "a" (Some two_questions) None 2000
      (after ann_answers_correctly) = Some (w', outs)
    ∧ timers w' = timers (after ann_answers_correctly).
Proof.
  eexists _, _. split; [vm_compute; reflexivity|].
  eapply (start_game_keeps_timers "a" (Some two_questions) None 2000).
  vm_compute. reflexivity.
Defined.

(** ** The stored buzz point (C4) *)

(** C4, as the code has it: after a successful buzz the caller is the
    recorded buzzer and the stored [buzzPoint] is the supplied value as it
    is when that is a number (negative ones included), and 0 otherwise. *)
Theorem buzz_stores_point w sid point w' outs :
  buzz sid point w = Some (w', outs) → callback sid success ∈ outs →
  ∃ c l party' gs',
    partyOf w sid = Some c
    ∧ getParty w' c = Some (l, party')
    ∧ gameState party' = Some gs'
    ∧ buzzedPlayerId gs' = Some sid
    ∧ buzzPoint gs' = match point with JS.Number n => n | _ => 0%Z end.
Proof.
  unfold buzz, reject. intros H Hin.
  assert (∀ e, callback sid success ∉ [callback sid (failure e)]) as Hrej.
  { intros e He. by apply list_elem_of_singleton in He. }
  destruct (partyOf w sid) as [c|];
    [|injection H as <- <-; by apply Hrej in Hin].
  destruct (getParty w c) as [[l party]|] eqn:Hg;
    [|injection H as <- <-; by apply Hrej in Hin].
  destruct (gameState party) as [gs|];
    [|injection H as <- <-; by apply Hrej in Hin].
  destruct (someone_buzzed gs);
    [injection H as <- <-; by apply Hrej in Hin|].
  destruct (buzzLocked gs);
    [injection H as <- <-; by apply Hrej in Hin|].
  case_decide; [injection H as <- <-; by apply Hrej in Hin|].
  injection H as <- <-. apply getParty_Some in Hg as [Hc Hl].
  eexists c, l, _, _. split; [done|]. split.
  - apply getParty_Some. simpl. split; [done|]. apply lookup_insert_eq.
  - by split_and!.
Qed.

Lemma buzz_stores_point_witness :
  ∃ w' outs,
    buzz "a" (JS.Number 7) (after ann_starts) = Some (w', outs)
    ∧ callback "a" success ∈ outs
    ∧ ∃ c l party' gs',
        partyOf (after ann_starts) "a" = Some c
        ∧ getParty w' c = Some (l, party')
        ∧ gameState party' = Some gs'
        ∧ buzzedPlayerId gs' = Some "a"
        ∧ buzzPoint gs' = 7%Z.
Proof.
  eexists _, _. split; [vm_compute; reflexivity|].
  split; [left|].
  eapply (buzz_stores_point (after ann_starts) "a" (JS.Number 7)).
  - vm_compute. reflexivity.
  - left.
Defined.

(** C4, counterexample: a buzz at offset -3 succeeds and the stored
    [buzzPoint] is -3, not a clamped 0. *)
Lemma negative_buzz_point_stored :
  ∃ w' party' gs',
    buzz "a" (JS.Number (-3)) (after ann_starts)
    = Some (w', [callback "a" success;
                 emit "1234" (Msg.player_buzzed "a" "Ann" (JS.Number (-3)))])
    ∧ partyAt w' "1234" = Some party'
    ∧ gameState party' = Some gs'
    ∧ buzzPoint gs' = (-3)%Z
    ∧ (buzzPoint gs' <? 0)%Z = true.
Proof.
  eexists _, _, _. split; [vm_compute; reflexivity|].
  split; [vm_compute; reflexivity|]. by split_and!.
Qed.

(** ** Scoring (C5) *)

Lemma or_zero_id n : JS.or_zero n = n.
Proof. unfold JS.or_zero. destruct (Z.eqb_spec n 0); congruence. Qed.

(** The question the handler reads, [party.questions[currentQuestionIndex]],
    is the current question. *)
Lemma index_currentQuestion party :
  JS.index (questions party) (currentQuestionIndex party)
  = currentQuestion party.
Proof.
  unfold JS.index, currentQuestion.
  destruct (Z.ltb_spec (currentQuestionIndex party) 0),
    (Z.leb_spec 0 (currentQuestionIndex party)); try lia; [done|].
  generalize (Z.to_nat (currentQuestionIndex party)) as n.
  induction (questions party) as [|q qs IH]; intros [|n]; simpl; done.
Qed.

Lemma questionLen_max party :
  Z.max 1 (questionLen party) = Z.max 1 (currentQuestionLength party).
Proof.
  unfold questionLen, currentQuestionLength.
  rewrite index_currentQuestion.
  destruct (currentQuestion party) as [q|]; [|done].
  destruct (question q) as [[|a text]|]; done.
Qed.

Lemma computedPoints_spec isCorrect party gs :
  computedPoints isCorrect party gs
  = spec_points isCorrect (buzzPoint gs) (currentQuestionLength party).
Proof.
  unfold computedPoints, spec_points.
  by rewrite or_zero_id, questionLen_max.
Qed.

(** The threshold over the integers: the quotient is below one half exactly
    when twice the buzz point is below the length. *)
Lemma spec_points_correct point len :
  spec_points true point len
  = if (2 * point <? Z.max 1 len)%Z then 15%Z else 10%Z.
Proof.
  unfold spec_points.
  destruct (Z.max 1 len) as [|m|m] eqn:Hm; [lia| |lia].
  destruct (Qlt_le_dec _ _) as [Hlt|Hle];
    [unfold Qlt in Hlt|unfold Qle in Hle]; simpl in *;
    destruct (Z.ltb_spec (2 * point) (Z.pos m)); lia.
Qed.

Lemma getPlayer_Some party sid r :
  getPlayer party sid = Some r → r ∈ players party ∧ id (deref party r) = sid.
Proof.
  unfold getPlayer. intros [Hin Heq]%find_some. split.
  - by apply list_elem_of_In.
  - by apply String.eqb_eq.
Qed.

Lemma getPlayer_has_id party sid :
  has_id party sid → is_Some (getPlayer party sid).
Proof.
  intros (r & Hr & Hid). unfold getPlayer.
  destruct (find _ _) eqn:Hfind; [by eexists|].
  apply list_elem_of_In in Hr.
  pose proof (find_none _ _ Hfind r Hr) as Hno. simpl in Hno.
  apply String.eqb_neq in Hno. done.
Qed.

Lemma score_deref_alter party r v :
  is_Some (objects party !! r) →
  score (deref (set_objects (alter (add_score v) r (objects party)) party) r)
  = (score (deref party r) + v)%Z.
Proof.
  intros [x Hx]. unfold deref; simpl.
  rewrite lookup_total_alter_eq, Hx. simpl.
  by rewrite (lookup_total_correct _ _ _ Hx).
Qed.



(** ** Joining (C6) *)

Lemma name_taken_existsb party playerName :
  existsb (λ p, JS.toLowerCase (name p)
                =? JS.toLowerCase (JS.trim playerName)) (roster party) = true
  ↔ name_taken party playerName.
Proof.
  rewrite existsb_exists. unfold name_taken.
  split; intros (p & Hin & Heq); exists p.
  - split; [by apply list_elem_of_In|by apply String.eqb_eq].
  - split; [by apply list_elem_of_In|by apply String.eqb_eq].
Qed.

Lemma trim_falsy playerName :
  JS.truthy playerName = false → JS.trim playerName = "".
Proof.
  unfold JS.truthy. destruct (String.eqb_spec playerName ""); [|done].
  by subst.
Qed.

Lemma roster_joined sid nm party :
  roster_ok party →
  roster (joined_party sid nm party)
  = roster party ++ [mkPlayer sid nm 0 false sid].
Proof.
  intros Hok. unfold roster. change (players (joined_party sid nm party))
    with (players party ++ [fresh (dom (objects party))]).
  rewrite fmap_app. simpl. rewrite deref_joined_new. f_equal.
  apply list_fmap_ext. intros i r Hr. apply deref_joined_old; [|done].
  by eapply list_elem_of_lookup_2.
Qed.




(** ** Leaving and disconnecting (C7) *)

Lemma filter_no_host party (l : list nat) :
  (∀ r, r ∈ l → isHost (deref party r) ≠ true) →
  filter (λ p, isHost p = true) (deref party <$> l) = [].
Proof.
  induction l as [|r l IH]; intros Hl; [done|].
  rewrite fmap_cons, filter_cons_False; [|apply Hl; left].
  apply IH. intros r' Hr'. apply Hl. by right.
Qed.

(** In a well-formed, non-empty roster exactly one player is flagged host. *)
Lemma host_count party :
  roster_ok party → players party ≠ [] →
  length (filter (λ p, isHost p = true) (roster party)) = 1.
Proof.
  intros [Ha Hn Hin Hflag Honly] Hne.
  destruct (list_elem_of_split _ _ (Hin Hne)) as (l1 & l2 & Heq).
  unfold roster. rewrite Heq in *.
  apply NoDup_app in Hn as (_ & Hl1 & [Hl2 _]%NoDup_cons).
  rewrite fmap_app, fmap_cons, filter_app, filter_cons_True by auto.
  rewrite !filter_no_host; [done| |].
  - intros r Hr Htrue. apply Honly in Htrue; [by subst r|].
    apply elem_of_app. right. by right.
  - intros r Hr Htrue. apply Honly in Htrue; [|by apply elem_of_app; left].
    subst r. apply (Hl1 _ Hr). left.
Qed.

(** C7, as the code has it: when a socket that is indexed to a party leaves
    or disconnects, its players are filtered out of the roster and the
    socket is de-indexed; the party is deleted from the registry exactly
    when the roster has become empty; otherwise, if the leaver was host, the
    host becomes the first player of the remaining roster array and that
    player's [isHost] flag is set, so that exactly one player of the roster
    is flagged host. *)
Theorem departure_outcome w sid c e :
  reachable w → partyOf w sid = Some c →
  e = LeaveParty sid ∨ e = Disconnect sid →
  ∃ l party w' outs party',
    getParty w c = Some (l, party)
    ∧ step w e = Some (w', outs)
    ∧ heap w' !! l = Some party'
    ∧ players party' = without sid party
    ∧ ¬ has_id party' sid
    ∧ playerToParty w' !! sid = None
    ∧ (players party' = [] → parties w' !! c = None)
    ∧ (players party' ≠ [] →
       parties w' !! c = Some l
       ∧ (id (deref party (host party)) = sid →
          players party' !! 0 = Some (host party'))
       ∧ (id (deref party (host party)) ≠ sid → host party' = host party)
       ∧ isHost (deref party' (host party')) = true
       ∧ length (filter (λ p, isHost p = true) (roster party')) = 1).
Proof.
  intros Hw Hc He. apply reachable_ok in Hw.
  destruct (ok_indexed _ Hw sid c (partyOf_Some _ _ _ Hc))
    as (l & party & Hg & _).
  pose proof Hg as [Hreg Hl]%getParty_Some.
  destruct (ok_heap _ Hw l party Hl) as [Hroster _].
  pose proof (roster_ok_departed sid party Hroster) as Hroster'.
  exists l, party, (after_departure sid c l party w).
  assert (∃ outs, step w e = Some (after_departure sid c l party w, outs))
    as [outs Hstep].
  { destruct He as [-> | ->]; simpl; eexists.
    - by apply leave_party_departure.
    - by apply disconnect_departure. }
  exists outs, (departed sid party). split_and!; try done.
  - simpl. apply lookup_insert_eq.
  - apply players_departed.
  - apply not_has_id_departed.
  - simpl. apply lookup_delete_eq.
  - rewrite players_departed. intros Hnil. simpl.
    rewrite decide_True by done. apply lookup_delete_eq.
  - rewrite players_departed. intros Hne. simpl.
    rewrite decide_False by done. split_and!.
    + done.
    + intros Hhost. unfold departed, assign_new_host. simpl.
      change (deref (set_players (without sid party) party) (host party))
        with (deref party (host party)).
      rewrite Hhost, String.eqb_refl.
      by destruct (without sid party).
    + intros Hhost. unfold departed. simpl.
      change (deref (set_players (without sid party) party) (host party))
        with (deref party (host party)).
      by apply String.eqb_neq in Hhost as ->.
    + apply Hroster'. by rewrite players_departed.
    + apply host_count; [done|]. by rewrite players_departed.
Qed.

Lemma departure_outcome_witness :
  partyOf (after ann_and_bob) "a" = Some "1234"
  ∧ ∃ l party w' outs party',
      getParty (after ann_and_bob) "1234" = Some (l, party)
      ∧ step (after ann_and_bob) (LeaveParty "a") = Some (w', outs)
      ∧ heap w' !! l = Some party'
      ∧ players party' = without "a" party
      ∧ ¬ has_id party' "a"
      ∧ playerToParty w' !! "a" = None
      ∧ (players party' = [] → parties w' !! "1234" = None)
      ∧ (players party' ≠ [] →
         parties w' !! "1234" = Some l
         ∧ (id (deref party (host party)) = "a" →
            players party' !! 0 = Some (host party'))
         ∧ (id (deref party (host party)) ≠ "a" → host party' = host party)
         ∧ isHost (deref party' (host party')) = true
         ∧ length (filter (λ p, isHost p = true) (roster party')) = 1).
Proof.
  split; [vm_compute; reflexivity|].
  apply (departure_outcome (after ann_and_bob) "a" "1234" (LeaveParty "a")).
  - apply reachable_after.
  - vm_compute. reflexivity.
  - by left.
Defined.

(** C7, counterexample: Bob joined before Cid, but finishing the game
    sorted the roster array by score, so when the host Ann leaves, the new
    host is Cid. *)
Lemma host_passes_to_top_scorer :
  (roster <$> partyAt (after (take 3 ann_leaves_after_game)) "1234")
  = Some [mkPlayer "a" "Ann" 0 true "a"; mkPlayer "b" "Bob" 0 false "b";
          mkPlayer "c" "Cid" 0 false "c"]
  ∧ ∃ party,
      partyAt (after ann_leaves_after_game) "1234" = Some party
      ∧ roster party = [mkPlayer "c" "Cid" 15 true "c";
                        mkPlayer "b" "Bob" 0 false "b"]
      ∧ deref party (host party) = mkPlayer "c" "Cid" 15 true "c".
Proof.
  split; [vm_compute; reflexivity|].
  eexists. split; [vm_compute; reflexivity|].
  split; vm_compute; reflexivity.
Qed.

(** ** Incorrect answers (C8) *)

Lemma attempted_add_elem sid tried : sid ∈ attempted_add sid tried.
Proof.
  unfold attempted_add. case_decide; [done|].
  apply elem_of_app. right. by apply list_elem_of_singleton.
Qed.




(** ** A buzzer who departs (C9) *)

Lemma gameState_departed sid party :
  gameState (departed sid party) = gameState party.
Proof.
  unfold departed, assign_new_host; simpl.
  destruct (String.eqb _ sid); [|done]. by destruct (without sid party).
Qed.

Lemma someone_buzzed_truthy gs p :
  buzzedPlayerId gs = Some p → p ≠ "" → someone_buzzed gs = true.
Proof.
  intros Hp Hne. unfold someone_buzzed, JS.truthy. rewrite Hp.
  by apply String.eqb_neq in Hne as ->.
Qed.

Lemma advanceToNextQuestion_other c w w' outs l party :
  advanceToNextQuestion c w = Some (w', outs) →
  heap w !! l = Some party → parties w !! c ≠ Some l →
  heap w' !! l = Some party.
Proof.
  unfold advanceToNextQuestion. intros Hadv Hl Hother.
  destruct (getParty w c) as [[l0 party0]|] eqn:Hg;
    [|by injection Hadv as <- _].
  apply getParty_Some in Hg as [Hreg _].
  assert (l0 ≠ l) as Hne by congruence. revert Hadv.
  destruct (pendingAdvanceTimeout party0); simpl;
    (destruct (gameState party0); [|done]); case_match;
    intros [= <- _]; simpl; by rewrite lookup_insert_ne.
Qed.

(** A quiet event leaves the game state of a party with a recorded buzz of
    [p] as it is. *)
Lemma quiet_step_keeps_game w e w' outs l party gs p :
  heap w !! l = Some party → gameState party = Some gs →
  buzzedPlayerId gs = Some p → p ≠ "" → quiet l p w e →
  step w e = Some (w', outs) →
  ∃ party', heap w' !! l = Some party' ∧ gameState party' = Some gs.
Proof.
  intros Hl Hgs Hp Hne Hq.
  assert (∀ l0 party0 (w0 : World),
    heap w0 = heap w → heap w !! l0 = Some party0 →
    ∀ party1, gameState party1 = gameState party0 →
    ∃ party', heap (store l0 party1 w0) !! l = Some party'
              ∧ gameState party' = Some gs) as Hstore.
  { intros l0 party0 w0 Hw0 Hl0 party1 Hsame. simpl. rewrite Hw0.
    destruct (decide (l0 = l)) as [->|Hl0l].
    - rewrite lookup_insert_eq. eexists. split; [done|].
      rewrite Hsame. congruence.
    - rewrite lookup_insert_ne by done. eauto. }
  destruct e; simpl in Hq |- *.
  - (* create_party *)
    unfold create_party, reject. case_match; [intros [= <- _]; eauto|].
    destruct (generatePartyCode draws w); [|done]. intros [= <- _].
    simpl. rewrite lookup_insert_ne; [eauto|].
    intros Heq. pose proof (is_fresh (dom (heap w))) as Hfresh.
    rewrite Heq in Hfresh. apply Hfresh, elem_of_dom. eauto.
  - (* join_party *)
    unfold join_party, reject. case_match; [intros [= <- _]; eauto|].
    destruct (getParty w partyCode) as [[l0 party0]|] eqn:Hg;
      [|intros [= <- _]; eauto].
    case_match; [intros [= <- _]; eauto|].
    case_match; [intros [= <- _]; eauto|].
    case_match; [done|].
    intros [= <- _]. apply getParty_Some in Hg as [_ Hl0].
    by apply (Hstore l0 party0 w).
  - (* leave_party *)
    destruct (partyOf w sid) as [c|] eqn:Hc.
    + destruct (getParty w c) as [[l0 party0]|] eqn:Hg.
      * rewrite (leave_party_departure _ _ _ _ _ Hc Hg). intros [= <- _].
        apply getParty_Some in Hg as [_ Hl0].
        apply (Hstore l0 party0 w); [done..|apply gameState_departed].
      * unfold leave_party, reject. rewrite Hc, Hg. intros [= <- _]. eauto.
    + unfold leave_party, reject. rewrite Hc. intros [= <- _]. eauto.
  - (* start_game: refused, or of another party *)
    unfold start_game, reject.
    destruct (partyOf w sid) as [c|] eqn:Hc; [|intros [= <- _]; eauto].
    destruct (getParty w c) as [[l0 party0]|] eqn:Hg;
      [|intros [= <- _]; eauto].
    destruct (String.eqb_spec (id (deref party0 (host party0))) sid)
      as [Hhost|Hhost]; cbn [negb]; [|intros [= <- _]; eauto].
    destruct qs as [[|q0 qs]|];
      [intros [= <- _]; eauto| |intros [= <- _]; eauto].
    intros [= <- _]. simpl. rewrite lookup_insert_ne; [eauto|]. intros ->.
    destruct (Hq c party0 eq_refl Hg) as [?|[?|?]]; done.
  - (* buzz *)
    unfold buzz, reject.
    destruct (partyOf w sid) as [c|]; [|intros [= <- _]; eauto].
    destruct (getParty w c) as [[l0 party0]|] eqn:Hg;
      [|intros [= <- _]; eauto].
    destruct (gameState party0) as [gs0|] eqn:Hgs0;
      [|intros [= <- _]; eauto].
    apply getParty_Some in Hg as [_ Hl0].
    destruct (someone_buzzed gs0) eqn:Hsb; [intros [= <- _]; eauto|].
    case_match; [intros [= <- _]; eauto|].
    case_decide; [intros [= <- _]; eauto|].
    intros [= <- _]. simpl.
    rewrite lookup_insert_ne; [eauto|]. intros ->.
    assert (gs0 = gs) as -> by congruence.
    by rewrite (someone_buzzed_truthy gs p) in Hsb.
  - (* reading_progress *)
    unfold reading_progress. destruct (partyOf w sid); intros [= <- _]; eauto.
  - (* answer_typing *)
    unfold answer_typing. destruct (partyOf w sid) as [c|];
      [|intros [= <- _]; eauto].
    destruct (getParty w c) as [[l0 party0]|]; [|intros [= <- _]; eauto].
    destruct (getPlayer party0 sid); intros [= <- _]; eauto.
  - (* submit_answer: refused, or of another party *)
    unfold submit_answer, reject.
    destruct (partyOf w sid) as [c|] eqn:Hc; [|intros [= <- _]; eauto].
    destruct (getParty w c) as [[l0 party0]|] eqn:Hg;
      [|intros [= <- _]; eauto].
    destruct (gameState party0) as [gs0|] eqn:Hgs0;
      [|intros [= <- _]; eauto].
    apply getParty_Some in Hg as [Hreg Hl0].
    case_bool_decide as Hmine; [|intros [= <- _]; eauto]. cbn [negb].
    assert (l0 ≠ l) as Hl0l.
    { intros ->. assert (gs0 = gs) as -> by congruence.
      assert (sid = p) as Hsid by congruence. by apply (Hq Hsid c). }
    destruct (getPlayer party0 sid) as [r|]; [|intros [= <- _]; eauto].
    destruct isCorrect; [|case_match]; cbn [setTimeout]; intros [= <- _];
      simpl; rewrite lookup_insert_ne by done; eauto.
  - (* next_question: refused, or of another party *)
    unfold next_question.
    destruct (partyOf w sid) as [c|] eqn:Hc; [|intros [= <- _]; eauto].
    destruct (getParty w c) as [[l0 party0]|] eqn:Hg;
      [|intros [= <- _]; eauto].
    destruct (gameState party0) as [gs0|] eqn:Hgs0;
      [|intros [= <- _]; eauto].
    destruct (String.eqb_spec (id (deref party0 (host party0))) sid)
      as [Hhost|Hhost]; cbn [negb]; [|intros [= <- _]; eauto].
    destruct (advanceToNextQuestion c w) as [[w1 o1]|] eqn:Hadv; [|done].
    simpl. intros [= <- _]. exists party. split; [|done].
    eapply advanceToNextQuestion_other; [done..|]. intros Hreg.
    pose proof Hg as [Hreg' _]%getParty_Some.
    assert (l0 = l) as -> by congruence.
    destruct (Hq c party0 eq_refl Hg) as [?|?]; congruence.
  - (* disconnect *)
    destruct (partyOf w sid) as [c|] eqn:Hc.
    + destruct (getParty w c) as [[l0 party0]|] eqn:Hg.
      * rewrite (disconnect_departure _ _ _ _ _ Hc Hg). intros [= <- _].
        apply getParty_Some in Hg as [_ Hl0].
        apply (Hstore l0 party0 w); [done..|apply gameState_departed].
      * unfold disconnect. rewrite Hc, Hg. intros [= <- _]. eauto.
    + unfold disconnect. rewrite Hc. intros [= <- _]. eauto.
  - (* a timer: time_up, or the advance of another party *)
    unfold timer_fires.
    destruct (timers w !! h) as [t|] eqn:Hh; [|intros [= <- _]; eauto].
    destruct (action t) as [c|c l0] eqn:Hact.
    + intros Hadv. exists party. split; [|done].
      eapply (advanceToNextQuestion_other c (clearTimeout h w)); [done..|].
      by apply (Hq t c).
    + simpl. intros [= <- _]. simpl. rewrite lookup_alter.
      destruct (decide (l0 = l)) as [->|]; [|eauto].
      rewrite Hl. simpl. eauto.
Qed.

Lemma quiet_run_keeps_game es w w' outs l party gs p :
  heap w !! l = Some party → gameState party = Some gs →
  buzzedPlayerId gs = Some p → p ≠ "" → quiet_run l p w es →
  run w es = Some (w', outs) →
  ∃ party', heap w' !! l = Some party' ∧ gameState party' = Some gs.
Proof.
  intros Hl Hgs Hp Hne. revert w party outs Hl Hgs.
  induction es as [|e es IH]; intros w party outs Hl Hgs Hq Hrun.
  - simpl in Hrun. injection Hrun as <- _. eauto.
  - destruct Hq as [He Hrest]. simpl in Hrun.
    destruct (step w e) as [[w1 o1]|] eqn:Hstep; [|done].
    simpl in Hrun. destruct (run w1 es) as [[w2 o2]|] eqn:Hrun1; [|done].
    simpl in Hrun. injection Hrun as <- _.
    destruct (quiet_step_keeps_game _ _ _ _ _ _ _ _ Hl Hgs Hp Hne He Hstep)
      as (party1 & Hl1 & Hgs1).
    eapply IH; [done..|by eapply Hrest|done].
Qed.

(** While [p]'s buzz is recorded, every buzz in that party is rejected and
    changes nothing. *)
Lemma buzz_blocked w q c l party gs p point :
  partyOf w q = Some c → getParty w c = Some (l, party) →
  gameState party = Some gs → buzzedPlayerId gs = Some p → p ≠ "" →
  buzz q point w = Some (w, [callback q (failure AlreadyBuzzed)]).
Proof.
  intros Hc Hg Hgs Hp Hne. unfold buzz, reject. rewrite Hc, Hg, Hgs.
  by rewrite (someone_buzzed_truthy gs p).
Qed.

(** C9, as the code has it: when the recorded buzzer [p] leaves or
    disconnects, the game state of the party object is left as it is ([p] is
    still the recorded buzzer although no roster entry carries its id), and
    it stays so over every run of events in which the party's question is
    not advanced, no game is started in the party, and [p]'s own socket
    submits no answer in the party: refused requests, events of other
    parties and the [time_up] timer may all occur.  Throughout, every buzz
    of a member of that party fails with AlreadyBuzzed and changes nothing. *)
Theorem departed_buzzer_blocks w p c l party gs e :
  partyOf w p = Some c → getParty w c = Some (l, party) →
  gameState party = Some gs → buzzedPlayerId gs = Some p → p ≠ "" →
  e = LeaveParty p ∨ e = Disconnect p →
  ∃ w1 o1 party1,
    step w e = Some (w1, o1)
    ∧ heap w1 !! l = Some party1
    ∧ gameState party1 = Some gs
    ∧ ¬ has_id party1 p
    ∧ ∀ es w2 o2,
        quiet_run l p w1 es → run w1 es = Some (w2, o2) →
        (∃ party2, heap w2 !! l = Some party2 ∧ gameState party2 = Some gs)
        ∧ ∀ q c' point,
            partyOf w2 q = Some c' → parties w2 !! c' = Some l →
            buzz q point w2
            = Some (w2, [callback q (failure AlreadyBuzzed)]).
Proof.
  intros Hc Hg Hgs Hp Hne He.
  assert (∃ o1, step w e = Some (after_departure p c l party w, o1))
    as [o1 Hstep].
  { destruct He as [-> | ->]; simpl; eexists.
    - by apply leave_party_departure.
    - by apply disconnect_departure. }
  assert (heap (after_departure p c l party w) !! l
          = Some (departed p party)) as Hl1.
  { simpl. apply lookup_insert_eq. }
  exists (after_departure p c l party w), o1, (departed p party).
  split_and!; try done.
  - by rewrite gameState_departed.
  - apply not_has_id_departed.
  - intros es w2 o2 Hq Hrun.
    destruct (quiet_run_keeps_game es (after_departure p c l party w)
                w2 o2 l (departed p party) gs p)
      as (party2 & Hl2 & Hgs2); try done.
    { by rewrite gameState_departed. }
    split; [by eauto|].
    intros q c' point Hq' Hreg. eapply buzz_blocked; try done.
    by apply getParty_Some.
Qed.

Lemma departed_buzzer_blocks_witness :
  ∃ party gs,
    getParty (after bob_buzzes) "1234" = Some (0, party)
    ∧ gameState party = Some gs
    ∧ buzzedPlayerId gs = Some "b"
    ∧ ∃ w1 o1 party1,
        step (after bob_buzzes) (Disconnect "b") = Some (w1, o1)
        ∧ heap w1 !! 0 = Some party1
        ∧ gameState party1 = Some gs
        ∧ ¬ has_id party1 "b"
        ∧ ∀ es w2 o2,
            quiet_run 0 "b" w1 es → run w1 es = Some (w2, o2) →
            (∃ party2, heap w2 !! 0 = Some party2
                       ∧ gameState party2 = Some gs)
            ∧ ∀ q c' point,
                partyOf w2 q = Some c' → parties w2 !! c' = Some 0 →
                buzz q point w2
                = Some (w2, [callback q (failure AlreadyBuzzed)]).
Proof.
  eexists _, _. split; [vm_compute; reflexivity|].
  split; [reflexivity|]. split; [reflexivity|].
  eapply (departed_buzzer_blocks (after bob_buzzes) "b" "1234" 0).
  - vm_compute. reflexivity.
  - vm_compute. reflexivity.
  - reflexivity.
  - reflexivity.
  - done.
  - by right.
Defined.

(** A run that is quiet for Bob's buzz although it holds a start_game, a
    next_question and a firing timer: [time_up] is broadcast, and Ann's buzz
    is still refused afterwards. *)
Lemma quiet_run_around_the_buzz :
  quiet_run 0 "b" (after bob_departs_before_time_up) around_the_buzz
  ∧ ∃ w2 o2,
      run (after bob_departs_before_time_up) around_the_buzz = Some (w2, o2)
      ∧ emit "1234" Msg.time_up ∈ o2
      ∧ buzz "a" (JS.Number 1) w2
        = Some (w2, [callback "a" (failure AlreadyBuzzed)]).
Proof.
  split.
  - unfold around_the_buzz. cbn [quiet_run quiet]. split.
    { intros c party _ _. right. by left. }
    intros w1 o1 Hstep. vm_compute in Hstep. injection Hstep as <- <-.
    split.
    { intros c party Hc. by vm_compute in Hc. }
    intros w1 o1 Hstep. vm_compute in Hstep. injection Hstep as <- <-.
    split.
    { intros t c Ht Hact. vm_compute in Ht. injection Ht as <-.
      by simpl in Hact. }
    intros w1 o1 Hstep. vm_compute in Hstep. injection Hstep as <- <-.
    split; [done|].
    intros w1 o1 Hstep. vm_compute in Hstep. injection Hstep as <- <-.
    split; [|done].
    intros c party Hc Hg. vm_compute in Hc. injection Hc as <-.
    vm_compute in Hg. discriminate Hg.
  - eexists _, _. split; [vm_compute; reflexivity|].
    split; [|vm_compute; reflexivity].
    do 2 right. left.
Qed.

(** C9, counterexample: after the recorded buzzer Bob has left, and with no
    question advance in between, Ann's buzz succeeds once she has started a
    new game; it also succeeds once Bob has joined again from the same socket
    and submitted an incorrect answer. *)
Lemma buzz_unblocked_without_advance :
  (∃ party gs,
     partyAt (after (bob_buzzes ++ [LeaveParty "b"])) "1234" = Some party
     ∧ roster party = [mkPlayer "a" "Ann" 0 true "a"]
     ∧ gameState party = Some gs
     ∧ buzzedPlayerId gs = Some "b")
  ∧ (∃ w' outs,
       run (after (bob_buzzes ++ [LeaveParty "b"]))
         [StartGame "a" (Some two_questions) None 2000;
          Buzz "a" (JS.Number 1)] = Some (w', outs)
       ∧ replies_to "a" outs = [success; success])
  ∧ ∃ w' outs,
      run (after (bob_buzzes ++ [LeaveParty "b"]))
        [JoinParty "b" "1234" "Bob";
         SubmitAnswer "b" false;
         Buzz "a" (JS.Number 1)] = Some (w', outs)
      ∧ replies_to "a" outs = [success].
Proof.
  split_and!.
  - eexists _, _. split; [vm_compute; reflexivity|].
    split; [vm_compute; reflexivity|]. by split.
  - eexists _, _. split; [vm_compute; reflexivity|]. reflexivity.
  - eexists _, _. split; [vm_compute; reflexivity|]. reflexivity.
Qed.

(** ** Submitting again (C10) *)

Lemma find_same {A} (f g : A → bool) (l : list A) :
  (∀ a, f a = g a) → List.find f l = List.find g l.
Proof.
  intros Hfg. induction l as [|a l IH]; simpl; [done|].
  by rewrite Hfg, IH.
Qed.

Lemma getPlayer_scored party sid v r0 :
  getPlayer (set_objects (alter (add_score v) r0 (objects party)) party) sid
  = getPlayer party sid.
Proof.
  unfold getPlayer. simpl. apply find_same. intros r.
  unfold deref. simpl. by rewrite id_alter.
Qed.


(** One correct answer of the recorded buzzer: the points are added, the
    lock is set, and the buzzer stays recorded. *)
Lemma submit_correct_step w sid c l party gs r :
  world_ok w → partyOf w sid = Some c → getParty w c = Some (l, party) →
  gameState party = Some gs → buzzedPlayerId gs = Some sid →
  getPlayer party sid = Some r →
  ∃ w1 o1 party1 gs1,
    submit_answer sid true w = Some (w1, o1)
    ∧ replies_to sid o1 = [success]
    ∧ partyOf w1 sid = Some c
    ∧ getParty w1 c = Some (l, party1)
    ∧ gameState party1 = Some gs1
    ∧ buzzedPlayerId gs1 = Some sid
    ∧ buzzPoint gs1 = buzzPoint gs
    ∧ buzzLocked gs1 = true
    ∧ getPlayer party1 sid = Some r
    ∧ currentQuestionLength party1 = currentQuestionLength party
    ∧ score (deref party1 r)
      = (score (deref party r)
         + spec_points true (buzzPoint gs) (currentQuestionLength party))%Z.
Proof.
  intros Hw Hc Hg Hgs Hbuzz Hr.
  pose proof Hg as [Hreg Hl]%getParty_Some.
  destruct (ok_heap _ Hw l party Hl) as [Hroster _].
  pose proof Hr as [Hrin _]%getPlayer_Some.
  pose proof (roster_alloc _ Hroster r Hrin) as Halloc.
  pose proof (computedPoints_spec true party gs) as Hpts.
  unfold submit_answer. rewrite Hc, Hg, Hgs, Hr.
  rewrite bool_decide_eq_true_2 by done. cbn [negb setTimeout].
  set (pts := computedPoints true party gs) in *. clearbody pts.
  eexists _, _, _, _. split; [reflexivity|].
  split; [simpl; by rewrite String.eqb_refl|].
  split; [exact Hc|].
  split; [apply getParty_Some; simpl; split; [done|apply lookup_insert_eq]|].
  split; [reflexivity|]. cbn [buzzedPlayerId buzzPoint buzzLocked].
  split_and!; try done.
  - change (getPlayer (set_objects (alter (add_score pts) r (objects party))
                         party) sid = Some r).
    by rewrite getPlayer_scored.
  - rewrite <- Hpts. by apply score_deref_alter.
Qed.



(** ** Further properties *)

(** X1: in every reachable world a registered party has players, its host is
    one of them, and exactly one player of its roster is flagged host. *)
Theorem one_host_in_every_party w c party :
  reachable w → partyAt w c = Some party →
  players party ≠ []
  ∧ host party ∈ players party
  ∧ isHost (deref party (host party)) = true
  ∧ length (filter (λ p, isHost p = true) (roster party)) = 1.
Proof.
  intros Hw Hparty. apply reachable_ok in Hw. unfold partyAt in Hparty.
  destruct (getParty w c) as [[l party0]|] eqn:Hg; [|done].
  simpl in Hparty. injection Hparty as ->.
  apply getParty_Some in Hg as [Hreg Hl].
  destruct (ok_registered _ Hw c l Hreg) as (p0 & Hp0 & _ & Hne).
  assert (p0 = party) as -> by congruence.
  destruct (ok_heap _ Hw l party Hl) as [Hroster _].
  split_and!; [done|by apply Hroster|by apply Hroster|by apply host_count].
Qed.

Lemma one_host_in_every_party_witness :
  ∃ party,
    partyAt (after ann_leaves_after_game) "1234" = Some party
    ∧ players party ≠ []
    ∧ host party ∈ players party
    ∧ isHost (deref party (host party)) = true
    ∧ length (filter (λ p, isHost p = true) (roster party)) = 1.
Proof.
  eexists. split; [vm_compute; reflexivity|].
  eapply (one_host_in_every_party (after ann_leaves_after_game) "1234").
  - apply reachable_after.
  - vm_compute. reflexivity.
Defined.

Lemma partyOf_truthy w sid c : partyOf w sid = Some c → JS.truthy c = true.
Proof.
  unfold partyOf. destruct (playerToParty w !! sid); [|done].
  case_match; naive_solver.
Qed.

Lemma generatePartyCode_drawn draws w c :
  generatePartyCode draws w = Some c →
  ∃ d, d ∈ draws ∧ c = pretty (1000 + d)%N.
Proof.
  induction draws as [|d ds IH]; simpl; [done|].
  destruct (parties w !! pretty (1000 + d)%N).
  - intros (d' & ? & ?)%IH. exists d'. split; [by right|done].
  - intros [= <-]. exists d. split; [left|done].
Qed.

(** Only create_party registers a code, and only one that it drew. *)
Lemma not_drawn_step w e w' outs c :
  step w e = Some (w', outs) → parties w !! c = None → not_drawn c e →
  parties w' !! c = None.
Proof.
  intros Hstep Hfree Hnot. revert Hstep.
  assert (∀ (c0 : string) (m : gmap string nat),
            m !! c = None → delete c0 m !! c = None) as Hdel.
  { intros c0 m Hm. apply lookup_delete_None. by right. }
  destruct e; simpl in Hnot |- *.
  - unfold create_party, reject. case_match; [by intros [= <- _]|].
    destruct (generatePartyCode draws w) as [c0|] eqn:Hgen; [|done].
    intros [= <- _]. simpl. rewrite lookup_insert_ne; [done|]. intros ->.
    apply generatePartyCode_drawn in Hgen as (d & Hd & Hc).
    by eapply Forall_forall in Hnot.
  - unfold join_party, reject. repeat case_match; by intros [= <- _].
  - unfold leave_party, reject.
    repeat case_match; intros [= <- _]; simpl; by auto.
  - unfold start_game, reject. repeat case_match; by intros [= <- _].
  - unfold buzz, reject. repeat case_match; by intros [= <- _].
  - unfold reading_progress. repeat case_match; by intros [= <- _].
  - unfold answer_typing. repeat case_match; by intros [= <- _].
  - unfold submit_answer, reject, setTimeout.
    repeat case_match; by intros [= <- _].
  - unfold next_question.
    destruct (partyOf w sid) as [c0|]; [|by intros [= <- _]].
    destruct (getParty w c0) as [[l party]|]; [|by intros [= <- _]].
    destruct (gameState party); [|by intros [= <- _]].
    case_match; [by intros [= <- _]|].
    destruct (advanceToNextQuestion c0 w) as [[w1 o1]|] eqn:Hadv; [|done].
    simpl. intros [= <- _]. revert Hadv. unfold advanceToNextQuestion.
    repeat case_match; intros [= <- _]; simpl; by simplify_eq/=.
  - unfold disconnect.
    repeat case_match; intros [= <- _]; simpl; by auto.
  - unfold timer_fires.
    destruct (timers w !! h) as [t|]; [|by intros [= <- _]].
    destruct (action t) as [c0|c0 l0].
    + unfold advanceToNextQuestion.
      repeat case_match; intros [= <- _]; simpl; by simplify_eq/=.
    + simpl. by intros [= <- _].
Qed.

Lemma not_drawn_run es w w' outs c :
  run w es = Some (w', outs) → parties w !! c = None →
  Forall (not_drawn c) es → parties w' !! c = None.
Proof.
  intros Hrun Hfree Hnot. revert w outs Hrun Hfree.
  induction Hnot as [|e es He _ IH]; intros w outs Hrun Hfree.
  - simpl in Hrun. by injection Hrun as <- _.
  - simpl in Hrun. destruct (step w e) as [[w1 o1]|] eqn:Hstep; [|done].
    simpl in Hrun. destruct (run w1 es) as [[w2 o2]|] eqn:Hrest; [|done].
    simpl in Hrun. injection Hrun as <- _.
    eapply IH; [done|]. by eapply not_drawn_step.
Qed.

(** X3: when the last player of a party leaves or disconnects (every roster
    entry carries the caller's id), the party is deleted from the registry
    and the socket de-indexed, nothing is broadcast and the pending timers
    are all left pending.  The code then stays unregistered over every run
    of events in which no create_party draws it, and throughout every
    join_party with a usable name and that code fails with PartyNotFound.
    (Once create_party draws the code again, it names the new party.) *)
Theorem last_player_departs w sid c l party e :
  partyOf w sid = Some c → getParty w c = Some (l, party) →
  without sid party = [] →
  e = LeaveParty sid ∨ e = Disconnect sid →
  ∃ w' outs,
    step w e = Some (w', outs)
    ∧ parties w' !! c = None
    ∧ playerToParty w' !! sid = None
    ∧ timers w' = timers w
    ∧ (∀ room m, emit room m ∉ outs)
    ∧ ∀ es w2 o2,
        Forall (not_drawn c) es → run w' es = Some (w2, o2) →
        parties w2 !! c = None
        ∧ ∀ sid' playerName,
            JS.trim playerName ≠ "" →
            join_party sid' c playerName w2 = reject w2 sid' PartyNotFound.
Proof.
  intros Hc Hg Hnil He.
  assert (∃ outs, step w e = Some (after_departure sid c l party w, outs)
                  ∧ ∀ room m, emit room m ∉ outs) as (outs & Hstep & Hquiet).
  { destruct He as [-> | ->]; simpl; eexists; (split;
      [by (apply leave_party_departure || apply disconnect_departure)|]);
      rewrite decide_True by done; intros room m Hin.
    - by apply list_elem_of_singleton in Hin.
    - by apply elem_of_nil in Hin. }
  assert (parties (after_departure sid c l party w) !! c = None) as Hgone.
  { simpl. rewrite decide_True by done. apply lookup_delete_eq. }
  exists (after_departure sid c l party w), outs.
  split_and!; try done.
  - simpl. apply lookup_delete_eq.
  - intros es w2 o2 Hes Hrun.
    pose proof (not_drawn_run _ _ _ _ _ Hrun Hgone Hes) as Hgone2.
    split; [done|].
    intros sid' playerName Hname. unfold join_party.
    rewrite (partyOf_truthy _ _ _ Hc). cbn [negb orb].
    destruct (JS.truthy playerName) eqn:Ht;
      [|by apply trim_falsy in Ht].
    apply String.eqb_neq in Hname as ->. cbn [negb orb].
    unfold getParty. by rewrite Hgone2.
Qed.

Lemma last_player_departs_witness :
  ∃ party,
    getParty (after ann_creates) "1234" = Some (0, party)
    ∧ without "a" party = []
    ∧ ∃ w' outs,
        step (after ann_creates) (Disconnect "a") = Some (w', outs)
        ∧ parties w' !! "1234" = None
        ∧ playerToParty w' !! "a" = None
        ∧ timers w' = timers (after ann_creates)
        ∧ (∀ room m, emit room m ∉ outs)
        ∧ ∀ es w2 o2,
            Forall (not_drawn "1234") es → run w' es = Some (w2, o2) →
            parties w2 !! "1234" = None
            ∧ ∀ sid' playerName,
                JS.trim playerName ≠ "" →
                join_party sid' "1234" playerName w2
                = reject w2 sid' PartyNotFound.
Proof.
  eexists. split; [vm_compute; reflexivity|]. split; [vm_compute; reflexivity|].
  eapply (last_player_departs (after ann_creates) "a" "1234" 0).
  - vm_compute. reflexivity.
  - vm_compute. reflexivity.
  - vm_compute. reflexivity.
  - by right.
Defined.

(** advanceToNextQuestion only broadcasts. *)
Lemma advanceToNextQuestion_no_reply c w w' outs s r :
  advanceToNextQuestion c w = Some (w', outs) → callback s r ∉ outs.
Proof.
  unfold advanceToNextQuestion.
  destruct (getParty w c) as [[l party]|];
    [|intros [= _ <-]; by intros ?%elem_of_nil].
  destruct (pendingAdvanceTimeout party); simpl;
    (destruct (gameState party); [|done]); case_match;
    intros [= _ <-] Hin; by apply list_elem_of_singleton in Hin.
Qed.

Ltac not_a_failure Hin :=
  simpl in Hin;
  repeat (apply elem_of_cons in Hin as [Hin|Hin]; [by simplify_eq|]);
  by apply elem_of_nil in Hin.

(** X4: a request that is answered with a failure changes nothing: every
    handler validates before it mutates. *)
Theorem failure_changes_nothing w e w' outs sid err :
  step w e = Some (w', outs) → callback sid (failure err) ∈ outs → w' = w.
Proof.
  destruct e; simpl.
  - unfold create_party, reject. case_match; [by intros [= <- _]|].
    destruct (generatePartyCode draws w); [|done].
    intros [= _ <-] Hin. not_a_failure Hin.
  - unfold join_party, reject. case_match; [by intros [= <- _]|].
    destruct (getParty w partyCode) as [[l party]|]; [|by intros [= <- _]].
    case_match; [by intros [= <- _]|]. case_match; [by intros [= <- _]|].
    case_match; [done|].
    intros [= _ <-] Hin. not_a_failure Hin.
  - unfold leave_party, reject.
    destruct (partyOf w sid0) as [c|]; [|by intros [= <- _]].
    destruct (getParty w c) as [[l party]|]; [|by intros [= <- _]].
    case_match; intros [= _ <-] Hin; not_a_failure Hin.
  - unfold start_game, reject.
    destruct (partyOf w sid0) as [c|]; [|by intros [= <- _]].
    destruct (getParty w c) as [[l party]|]; [|by intros [= <- _]].
    case_match; [by intros [= <- _]|].
    destruct qs as [[|q qs]|]; [by intros [= <- _]| |by intros [= <- _]].
    intros [= _ <-] Hin. not_a_failure Hin.
  - unfold buzz, reject.
    destruct (partyOf w sid0) as [c|]; [|by intros [= <- _]].
    destruct (getParty w c) as [[l party]|]; [|by intros [= <- _]].
    destruct (gameState party) as [gs|]; [|by intros [= <- _]].
    case_match; [by intros [= <- _]|]. case_match; [by intros [= <- _]|].
    case_decide; [by intros [= <- _]|].
    intros [= _ <-] Hin. not_a_failure Hin.
  - unfold reading_progress. destruct (partyOf w sid0); by intros [= <- _].
  - unfold answer_typing. destruct (partyOf w sid0) as [c|];
      [|by intros [= <- _]].
    destruct (getParty w c) as [[l party]|]; [|by intros [= <- _]].
    destruct (getPlayer party sid0); by intros [= <- _].
  - unfold submit_answer, reject.
    destruct (partyOf w sid0) as [c|]; [|by intros [= <- _]].
    destruct (getParty w c) as [[l party]|]; [|by intros [= <- _]].
    destruct (gameState party) as [gs|]; [|by intros [= <- _]].
    case_match; [by intros [= <- _]|].
    destruct (getPlayer party sid0) as [r|]; [|by intros [= <- _]].
    destruct isCorrect; [|case_match]; cbn [setTimeout];
      intros [= _ <-] Hin; not_a_failure Hin.
  - unfold next_question.
    destruct (partyOf w sid0) as [c|]; [|by intros [= <- _]].
    destruct (getParty w c) as [[l party]|]; [|by intros [= <- _]].
    destruct (gameState party); [|by intros [= <- _]].
    case_match; [by intros [= <- _]|].
    destruct (advanceToNextQuestion c w) as [[w1 o1]|] eqn:Hadv; [|done].
    simpl. intros [= _ <-] Hin. apply elem_of_app in Hin as [Hin|Hin].
    + by apply (advanceToNextQuestion_no_reply _ _ _ _ _ _ Hadv) in Hin.
    + destruct ack; not_a_failure Hin.
  - unfold disconnect.
    destruct (partyOf w sid0) as [c|]; [|by intros [= <- _]].
    destruct (getParty w c) as [[l party]|]; [|by intros [= <- _]].
    case_match; intros [= _ <-] Hin; not_a_failure Hin.
  - unfold timer_fires.
    destruct (timers w !! h) as [t|]; [|by intros [= <- _]].
    destruct (action t) as [c|c l].
    + intros Hadv Hin.
      by apply (advanceToNextQuestion_no_reply _ _ _ _ _ _ Hadv) in Hin.
    + simpl. intros [= _ <-] Hin. not_a_failure Hin.
Qed.

Lemma failure_changes_nothing_witness :
  ∃ w' outs,
    step (after ann_creates) (JoinParty "b" "9999" "Bob") = Some (w', outs)
    ∧ callback "b" (failure PartyNotFound) ∈ outs
    ∧ w' = after ann_creates.
Proof.
  eexists _, _. split; [vm_compute; reflexivity|]. split; [left|].
  eapply (failure_changes_nothing (after ann_creates)
            (JoinParty "b" "9999" "Bob") _ _ "b" PartyNotFound).
  - vm_compute. reflexivity.
  - left.
Defined.




(** X6: the server can be brought down by a stale timer.  There is a run
    of events from the initial state (a party with a pending advance timer
    is emptied and deleted, and a new party draws the same code) after which
    the advance timer of the deleted party is still pending and its firing
    throws on the new party, which has no game state. *)
Theorem stale_timer_throws_on_reused_code :
  ∃ es w outs h c,
    run initial es = Some (w, outs)
    ∧ reachable w
    ∧ timers w !! h = Some (mkTimer 5000 (Advance c))
    ∧ (gameState <$> partyAt w c) = Some None
    ∧ step w (TimerFires h) = None.
Proof.
  destruct (run initial code_reused) as [[w o]|] eqn:Hrun;
    [|by vm_compute in Hrun].
  assert (w = after code_reused) as -> by (unfold after; by rewrite Hrun).
  exists code_reused, (after code_reused), o, 0, "1234". split_and!.
  - done.
  - apply reachable_after.
  - vm_compute. reflexivity.
  - vm_compute. reflexivity.
  - vm_compute. reflexivity.
Qed.




Lemma attempted_add_mono sid tried x :
  x ∈ tried → x ∈ attempted_add sid tried.
Proof.
  unfold attempted_add. case_decide; [done|]. intros ?.
  apply elem_of_app. by left.
Qed.

(** Within one question the attempted set of a party only grows. *)
Lemma same_question_step_attempted w e w' outs l party gs :
  heap w !! l = Some party → gameState party = Some gs →
  same_question e → step w e = Some (w', outs) →
  ∃ party' gs',
    heap w' !! l = Some party' ∧ gameState party' = Some gs'
    ∧ ∀ x, x ∈ attempted gs → x ∈ attempted gs'.
Proof.
  intros Hl Hgs Hq.
  assert (∃ party' gs', heap w !! l = Some party'
            ∧ gameState party' = Some gs'
            ∧ ∀ x, x ∈ attempted gs → x ∈ attempted gs') as Hsame.
  { by exists party, gs. }
  assert (∀ l0 party0 (w0 : World),
    heap w0 = heap w → heap w !! l0 = Some party0 →
    ∀ party1 gs1,
      (∀ gs0, gameState party0 = Some gs0 →
              gameState party1 = Some (gs1 gs0)
              ∧ ∀ x, x ∈ attempted gs0 → x ∈ attempted (gs1 gs0)) →
    ∃ party' gs', heap (store l0 party1 w0) !! l = Some party'
              ∧ gameState party' = Some gs'
              ∧ ∀ x, x ∈ attempted gs → x ∈ attempted gs') as Hstore.
  { intros l0 party0 w0 Hw0 Hl0 party1 gs1 Hgrow. simpl. rewrite Hw0.
    destruct (decide (l0 = l)) as [->|Hl0l].
    - rewrite lookup_insert_eq. assert (party0 = party) as -> by congruence.
      destruct (Hgrow gs Hgs) as [? ?]. by exists party1, (gs1 gs).
    - rewrite lookup_insert_ne by done. by exists party, gs. }
  destruct e; simpl in Hq |- *; try done.
  - unfold create_party, reject. case_match; [by intros [= <- _]|].
    destruct (generatePartyCode draws w); [|done]. intros [= <- _].
    simpl. rewrite lookup_insert_ne; [by exists party, gs|].
    intros Heq. pose proof (is_fresh (dom (heap w))) as Hfresh.
    rewrite Heq in Hfresh. apply Hfresh, elem_of_dom. eauto.
  - unfold join_party, reject. case_match; [by intros [= <- _]|].
    destruct (getParty w partyCode) as [[l0 party0]|] eqn:Hg;
      [|by intros [= <- _]].
    case_match; [by intros [= <- _]|]. case_match; [by intros [= <- _]|].
    case_match; [done|].
    intros [= <- _]. apply getParty_Some in Hg as [_ Hl0].
    by apply (Hstore l0 party0 w eq_refl Hl0 _ (λ g, g)).
  - destruct (partyOf w sid) as [c|] eqn:Hc.
    + destruct (getParty w c) as [[l0 party0]|] eqn:Hg.
      * rewrite (leave_party_departure _ _ _ _ _ Hc Hg). intros [= <- _].
        apply getParty_Some in Hg as [_ Hl0].
        apply (Hstore l0 party0 w eq_refl Hl0 _ (λ g, g)).
        intros gs0 Hgs0. by rewrite gameState_departed.
      * unfold leave_party, reject. rewrite Hc, Hg. by intros [= <- _].
    + unfold leave_party, reject. rewrite Hc. by intros [= <- _].
  - unfold buzz, reject.
    destruct (partyOf w sid) as [c|]; [|by intros [= <- _]].
    destruct (getParty w c) as [[l0 party0]|] eqn:Hg; [|by intros [= <- _]].
    destruct (gameState party0) as [gs0|] eqn:Hgs0; [|by intros [= <- _]].
    apply getParty_Some in Hg as [_ Hl0].
    case_match; [by intros [= <- _]|]. case_match; [by intros [= <- _]|].
    case_decide; [by intros [= <- _]|].
    intros [= <- _].
    apply (Hstore l0 party0 w eq_refl Hl0 _
             (λ g, mkGameState (status g) (Some sid)
                     (match point with JS.Number n => n | _ => 0%Z end)
                     (attempted g) None (startTime g) (buzzLocked g))).
    intros g Hg'. assert (g = gs0) as -> by congruence.
    split; [|done]. simpl. by destruct (buzzLocked gs0).
  - unfold reading_progress. destruct (partyOf w sid); by intros [= <- _].
  - unfold answer_typing. destruct (partyOf w sid) as [c|];
      [|by intros [= <- _]].
    destruct (getParty w c) as [[l0 party0]|]; [|by intros [= <- _]].
    destruct (getPlayer party0 sid); by intros [= <- _].
  - unfold submit_answer, reject.
    destruct (partyOf w sid) as [c|]; [|by intros [= <- _]].
    destruct (getParty w c) as [[l0 party0]|] eqn:Hg; [|by intros [= <- _]].
    destruct (gameState party0) as [gs0|] eqn:Hgs0; [|by intros [= <- _]].
    apply getParty_Some in Hg as [_ Hl0].
    case_match; [by intros [= <- _]|].
    destruct (getPlayer party0 sid) as [r|]; [|by intros [= <- _]].
    destruct isCorrect; [|case_match]; cbn [setTimeout]; intros [= <- _].
    + apply (Hstore l0 party0 (mkWorld _ _ _ _ _) eq_refl Hl0 _
               (λ g, mkGameState (status g) (buzzedPlayerId g) (buzzPoint g)
                       (attempted g) (lastIncorrectPlayerId g) (startTime g)
                       true)).
      intros g Hg'. by assert (g = gs0) as -> by congruence.
    + apply (Hstore l0 party0 (mkWorld _ _ _ _ _) eq_refl Hl0 _
               (λ g, mkGameState (status g) None 0
                       (attempted_add sid (attempted g))
                       (lastIncorrectPlayerId g) (startTime g)
                       (buzzLocked g))).
      intros g Hg'. assert (g = gs0) as -> by congruence.
      split; [done|]. intros x. apply attempted_add_mono.
    + apply (Hstore l0 party0 w eq_refl Hl0 _
               (λ g, mkGameState (status g) None 0
                       (attempted_add sid (attempted g))
                       (lastIncorrectPlayerId g) (startTime g)
                       (buzzLocked g))).
      intros g Hg'. assert (g = gs0) as -> by congruence.
      split; [done|]. intros x. apply attempted_add_mono.
  - destruct (partyOf w sid) as [c|] eqn:Hc.
    + destruct (getParty w c) as [[l0 party0]|] eqn:Hg.
      * rewrite (disconnect_departure _ _ _ _ _ Hc Hg). intros [= <- _].
        apply getParty_Some in Hg as [_ Hl0].
        apply (Hstore l0 party0 w eq_refl Hl0 _ (λ g, g)).
        intros gs0 Hgs0. by rewrite gameState_departed.
      * unfold disconnect. rewrite Hc, Hg. by intros [= <- _].
    + unfold disconnect. rewrite Hc. by intros [= <- _].
Qed.

Lemma same_question_run_attempted es w w' outs l party gs :
  heap w !! l = Some party → gameState party = Some gs →
  Forall same_question es → run w es = Some (w', outs) →
  ∃ party' gs',
    heap w' !! l = Some party' ∧ gameState party' = Some gs'
    ∧ ∀ x, x ∈ attempted gs → x ∈ attempted gs'.
Proof.
  intros Hl Hgs Hq. revert w party gs outs Hl Hgs.
  induction Hq as [|e es He _ IH]; intros w party gs outs Hl Hgs Hrun.
  - simpl in Hrun. injection Hrun as <- _. by exists party, gs.
  - simpl in Hrun. destruct (step w e) as [[w1 o1]|] eqn:Hstep; [|done].
    simpl in Hrun. destruct (run w1 es) as [[w2 o2]|] eqn:Hrest; [|done].
    simpl in Hrun. injection Hrun as <- _.
    destruct (same_question_step_attempted _ _ _ _ _ _ _ Hl Hgs He Hstep)
      as (party1 & gs1 & Hl1 & Hgs1 & Hsub1).
    destruct (IH w1 party1 gs1 o2 Hl1 Hgs1 Hrest)
      as (party2 & gs2 & Hl2 & Hgs2 & Hsub2).
    exists party2, gs2. split_and!; [done..|]. auto.
Qed.

(** X8: one attempt per question.  Once the recorded buzzer has submitted
    an incorrect answer, every buzz of the same socket in that party is
    refused (with AlreadyBuzzed, BuzzLocked or AlreadyAttempted) and changes
    nothing, over every run of events that holds no question advance and no
    start_game. *)
Theorem one_attempt_per_question w sid c l party gs :
  reachable w → partyOf w sid = Some c → getParty w c = Some (l, party) →
  gameState party = Some gs → buzzedPlayerId gs = Some sid →
  ∃ w1 o1,
    submit_answer sid false w = Some (w1, o1)
    ∧ ∀ es w2 o2 c' point,
        Forall same_question es → run w1 es = Some (w2, o2) →
        partyOf w2 sid = Some c' → parties w2 !! c' = Some l →
        ∃ err,
          buzz sid point w2 = Some (w2, [callback sid (failure err)])
          ∧ (err = AlreadyBuzzed ∨ err = BuzzLocked
             ∨ err = AlreadyAttempted).
Proof.
  intros Hw Hc Hg Hgs Hbuzz. apply reachable_ok in Hw.
  destruct (ok_indexed _ Hw sid c (partyOf_Some _ _ _ Hc))
    as (l0 & party0 & Hg0 & Hid).
  rewrite Hg in Hg0. injection Hg0 as <- <-.
  destruct (getPlayer_has_id party sid Hid) as [r Hr].
  assert (∃ w1 o1 party1 gs1,
            submit_answer sid false w = Some (w1, o1)
            ∧ heap w1 !! l = Some party1 ∧ gameState party1 = Some gs1
            ∧ sid ∈ attempted gs1)
    as (w1 & o1 & party1 & gs1 & Hsub & Hl1 & Hgs1 & Hin1).
  { unfold submit_answer. rewrite Hc, Hg, Hgs, Hr.
    rewrite bool_decide_eq_true_2 by done. cbn [negb].
    case_match; cbn [setTimeout]; eexists _, _, _, _;
      (split; [reflexivity|]); simpl; rewrite lookup_insert_eq;
      (split; [reflexivity|]); (split; [reflexivity|]);
      apply attempted_add_elem. }
  exists w1, o1. split; [done|].
  intros es w2 o2 c' point Hq Hrun Hc' Hreg'.
  destruct (same_question_run_attempted es w1 w2 o2 l party1 gs1)
    as (party2 & gs2 & Hl2 & Hgs2 & Hsub2); try done.
  unfold buzz, reject. rewrite Hc'.
  assert (getParty w2 c' = Some (l, party2)) as -> by (by apply getParty_Some).
  rewrite Hgs2.
  destruct (someone_buzzed gs2); [eexists; split; [done|by left]|].
  destruct (buzzLocked gs2); [eexists; split; [done|by right; left]|].
  rewrite decide_True by auto. eexists. split; [done|by right; right].
Qed.

Lemma one_attempt_per_question_witness :
  ∃ party gs,
    getParty (after ann_buzzes) "1234" = Some (0, party)
    ∧ gameState party = Some gs
    ∧ buzzedPlayerId gs = Some "a"
    ∧ ∃ w1 o1,
        submit_answer "a" false (after ann_buzzes) = Some (w1, o1)
        ∧ ∀ es w2 o2 c' point,
            Forall same_question es → run w1 es = Some (w2, o2) →
            partyOf w2 "a" = Some c' → parties w2 !! c' = Some 0 →
            ∃ err,
              buzz "a" point w2 = Some (w2, [callback "a" (failure err)])
              ∧ (err = AlreadyBuzzed ∨ err = BuzzLocked
                 ∨ err = AlreadyAttempted).
Proof.
  eexists _, _. split; [vm_compute; reflexivity|].
  split; [reflexivity|]. split; [reflexivity|].
  eapply (one_attempt_per_question (after ann_buzzes) "a" "1234" 0).
  - apply reachable_after.
  - vm_compute. reflexivity.
  - vm_compute. reflexivity.
  - reflexivity.
  - reflexivity.
Defined.

(** *** The leaderboard *)

Lemma insert_by_score_sorted party r l :
  StronglySorted (λ a b, (score (deref party b) ≤ score (deref party a))%Z) l →
  StronglySorted (λ a b, (score (deref party b) ≤ score (deref party a))%Z)
    (insert_by_score party r l).
Proof.
  induction 1 as [|r' l Hl IH Hall]; simpl.
  - repeat constructor.
  - destruct (Z.ltb_spec (score (deref party r)) (score (deref party r'))).
    + constructor; [done|]. rewrite insert_by_score_perm.
      constructor; [lia|done].
    + constructor; [by constructor|]. constructor; [done|].
      eapply Forall_impl; [exact Hall|]. simpl. intros; lia.
Qed.

Lemma sort_by_score_sorted party l :
  StronglySorted (λ a b, (score (deref party b) ≤ score (deref party a))%Z)
    (sort_by_score party l).
Proof.
  induction l as [|r l IH]; simpl; [constructor|].
  by apply insert_by_score_sorted.
Qed.

Lemma insert_by_score_stable party s r l :
  filter (λ r, score (deref party r) = s) (insert_by_score party r l)
  = filter (λ r, score (deref party r) = s) (r :: l).
Proof.
  induction l as [|r' l IH]; simpl; [done|].
  destruct (Z.ltb_spec (score (deref party r)) (score (deref party r')));
    [|done].
  rewrite (filter_cons _ r'), IH, !filter_cons.
  repeat case_decide; (done || lia).
Qed.

Lemma sort_by_score_stable party s l :
  filter (λ r, score (deref party r) = s) (sort_by_score party l)
  = filter (λ r, score (deref party r) = s) l.
Proof.
  induction l as [|r l IH]; simpl; [done|].
  by rewrite insert_by_score_stable, !filter_cons, IH.
Qed.

Lemma filter_score_fmap party s (l : list nat) :
  filter (λ p, score p = s) (deref party <$> l)
  = deref party <$> filter (λ r, score (deref party r) = s) l.
Proof.
  induction l as [|r l IH]; [done|].
  rewrite fmap_cons, !filter_cons, IH. by case_decide.
Qed.

Lemma sort_by_score_ext party1 party l :
  objects party1 = objects party →
  sort_by_score party1 l = sort_by_score party l.
Proof.
  intros Ho.
  assert (∀ r l0, insert_by_score party1 r l0 = insert_by_score party r l0)
    as Hins.
  { intros r l0. induction l0 as [|r' l0 IH]; simpl; [done|].
    unfold deref. by rewrite Ho, IH. }
  induction l as [|r l IH]; simpl; [done|]. by rewrite IH, Hins.
Qed.

(** The roster after the in-place sort, against the roster before. *)
Lemma sorted_roster party :
  let ros := deref party <$> sort_by_score party (players party) in
  ros ≡ₚ roster party
  ∧ StronglySorted (λ a b, (score b ≤ score a)%Z) ros
  ∧ ∀ s, filter (λ p, score p = s) ros
         = filter (λ p, score p = s) (roster party).
Proof.
  simpl. split_and!.
  - unfold roster. by rewrite sort_by_score_perm.
  - apply (StronglySorted_fmap (deref party)
             (λ a b, (score (deref party b) ≤ score (deref party a))%Z)).
    + by intros a b.
    + apply sort_by_score_sorted.
  - intros s. unfold roster.
    by rewrite !filter_score_fmap, sort_by_score_stable.
Qed.

Lemma roster_after_sort p' party :
  objects p' = objects party →
  players p' = sort_by_score party (players party) →
  roster p' = deref party <$> sort_by_score party (players party).
Proof. intros Ho Hp. unfold roster, deref. by rewrite Ho, Hp. Qed.

(** X9: when an advance moves past the last question, the game is marked
    finished and [game_finished] is broadcast with the roster sorted by
    descending score, players of equal score keeping their order; the roster
    array of the party itself is left in that order. *)
Theorem advance_past_last_question w c l party gs :
  getParty w c = Some (l, party) → gameState party = Some gs →
  (Z.of_nat (length (questions party)) ≤ currentQuestionIndex party + 1)%Z →
  ∃ w' party' gs',
    advanceToNextQuestion c w
    = Some (w', [emit c (Msg.game_finished (roster party'))])
    ∧ getParty w' c = Some (l, party')
    ∧ gameState party' = Some gs' ∧ status gs' = finished
    ∧ roster party' ≡ₚ roster party
    ∧ StronglySorted (λ a b, (score b ≤ score a)%Z) (roster party')
    ∧ ∀ s, filter (λ p, score p = s) (roster party')
           = filter (λ p, score p = s) (roster party).
Proof.
  intros Hg Hgs Hlast. pose proof Hg as [Hreg Hl]%getParty_Some.
  apply Z.leb_le in Hlast.
  unfold advanceToNextQuestion. rewrite Hg.
  destruct (pendingAdvanceTimeout party) as [h|]; simpl;
    rewrite Hgs, Hlast; eexists _, _, _;
    (split; [reflexivity|]);
    (split; [apply getParty_Some; simpl; split;
             [done|apply lookup_insert_eq]|]);
    (split; [reflexivity|]); (split; [reflexivity|]).
  all: rewrite (roster_after_sort _ party) by
         (reflexivity || (simpl; by apply sort_by_score_ext)).
  all: apply (sorted_roster party).
Qed.

Lemma advance_past_last_question_witness :
  ∃ party gs,
    getParty (after cid_scores) "1234" = Some (0, party)
    ∧ gameState party = Some gs
    ∧ (Z.of_nat (length (questions party))
       ≤ currentQuestionIndex party + 1)%Z
    ∧ ∃ w' party' gs',
        advanceToNextQuestion "1234" (after cid_scores)
        = Some (w', [emit "1234" (Msg.game_finished (roster party'))])
        ∧ getParty w' "1234" = Some (0, party')
        ∧ gameState party' = Some gs' ∧ status gs' = finished
        ∧ roster party' ≡ₚ roster party
        ∧ StronglySorted (λ a b, (score b ≤ score a)%Z) (roster party')
        ∧ ∀ s, filter (λ p, score p = s) (roster party')
               = filter (λ p, score p = s) (roster party).
Proof.
  eexists _, _. split; [vm_compute; reflexivity|].
  split; [reflexivity|]. split; [by vm_compute|].
  eapply (advance_past_last_question (after cid_scores) "1234" 0).
  - vm_compute. reflexivity.
  - reflexivity.
  - by vm_compute.
Defined.

(** X10: reading_progress and answer_typing never change the world.  From
    a socket that is not in a party they do nothing at all; from a socket in
    a party of a reachable world each broadcasts one message to that party,
    answer_typing under the name of the caller's roster entry. *)
Theorem passthrough_events w sid v :
  reachable w →
  (partyOf w sid = None →
   reading_progress sid v w = Some (w, [])
   ∧ answer_typing sid v w = Some (w, []))
  ∧ ∀ c, partyOf w sid = Some c →
      ∃ l party r,
        getParty w c = Some (l, party)
        ∧ getPlayer party sid = Some r
        ∧ reading_progress sid v w
          = Some (w, [emit c (Msg.reading_progress v)])
        ∧ answer_typing sid v w
          = Some (w, [emit c (Msg.answer_typing (name (deref party r)) v)]).
Proof.
  intros Hw. apply reachable_ok in Hw.
  unfold reading_progress, answer_typing. split.
  - by intros ->.
  - intros c Hc.
    destruct (ok_indexed _ Hw sid c (partyOf_Some _ _ _ Hc))
      as (l & party & Hg & Hid).
    destruct (getPlayer_has_id party sid Hid) as [r Hr].
    exists l, party, r. by rewrite Hc, Hg, Hr.
Qed.

Lemma passthrough_events_witness :
  ∃ l party r,
    getParty (after ann_and_bob) "1234" = Some (l, party)
    ∧ getPlayer party "b" = Some r
    ∧ reading_progress "b" (JS.Number 12) (after ann_and_bob)
      = Some (after ann_and_bob,
              [emit "1234" (Msg.reading_progress (JS.Number 12))])
    ∧ answer_typing "b" (JS.Number 12) (after ann_and_bob)
      = Some (after ann_and_bob,
              [emit "1234"
                 (Msg.answer_typing (name (deref party r)) (JS.Number 12))]).
Proof.
  eapply (passthrough_events (after ann_and_bob) "b" (JS.Number 12)).
  - apply reachable_after.
  - vm_compute. reflexivity.
Defined.

(** *** Joining and leaving again *)

Lemma filter_all {A} (P : A → Prop) `{∀ x, Decision (P x)} (l : list A) :
  (∀ x, x ∈ l → P x) → filter P l = l.
Proof.
  induction l as [|a l IH]; intros Hl; [done|].
  rewrite filter_cons_True by (apply Hl; left).
  f_equal. apply IH. intros x Hx. apply Hl. by right.
Qed.

Lemma without_joined sid nm party :
  roster_ok party → ¬ has_id party sid →
  without sid (joined_party sid nm party) = players party.
Proof.
  intros Hok Hnot. unfold without.
  change (players (joined_party sid nm party))
    with (players party ++ [fresh (dom (objects party))]).
  rewrite filter_app, filter_cons_False, filter_nil, app_nil_r.
  - apply filter_all. intros r Hr. rewrite deref_joined_old by done.
    intros Hid. apply Hnot. by exists r.
  - rewrite deref_joined_new. simpl. by intros [].
Qed.

(** X11: join_party followed by leave_party of the same socket is a round
    trip for the party.  In a reachable world, when a socket that has no
    entry on the roster joins a party that holds no timer handle (with one,
    the join throws) and then leaves, the roster (players, order, scores,
    host flags), the host, the game state and the registry are as before
    the join, and the socket is not indexed. *)
Theorem join_then_leave w sid c playerName l party :
  reachable w → JS.truthy c = true → JS.trim playerName ≠ "" →
  getParty w c = Some (l, party) →
  (length (players party) < 8)%nat → ¬ name_taken party playerName →
  ¬ has_id party sid → pendingAdvanceTimeout party = None →
  ∃ w1 o1 party1 w2 o2 party2,
    join_party sid c playerName w = Some (w1, o1)
    ∧ replies_to sid o1 = [joined sid party1]
    ∧ partyOf w1 sid = Some c
    ∧ leave_party sid w1 = Some (w2, o2)
    ∧ getParty w2 c = Some (l, party2)
    ∧ players party2 = players party
    ∧ roster party2 = roster party
    ∧ host party2 = host party
    ∧ gameState party2 = gameState party
    ∧ parties w2 = parties w
    ∧ playerToParty w2 = delete sid (playerToParty w)
    ∧ timers w2 = timers w.
Proof.
  intros Hw Hc Hname Hg Hroom Hfree Hnot Hpend. apply reachable_ok in Hw.
  pose proof Hg as [Hreg Hl]%getParty_Some.
  destruct (ok_heap _ Hw l party Hl) as [Hroster _].
  destruct (ok_registered _ Hw c l Hreg) as (p0 & Hp0 & _ & Hne).
  assert (p0 = party) as -> by congruence.
  set (jp := joined_party sid (JS.trim playerName) party).
  set (w1 := set_playerToParty (<[sid := c]> (playerToParty w))
               (store l jp w)).
  assert (∃ o1, join_party sid c playerName w = Some (w1, o1)
                ∧ replies_to sid o1 = [joined sid jp]) as (o1 & Hjoin & Ho1).
  { unfold join_party. rewrite Hc, Hg. cbn [negb orb].
    destruct (JS.truthy playerName) eqn:Ht;
      [|by apply trim_falsy in Ht].
    apply String.eqb_neq in Hname as ->. cbn [negb orb].
    apply Nat.leb_gt in Hroom as ->.
    destruct (existsb _ _) eqn:Hex; [by apply name_taken_existsb in Hex|].
    cbn [pendingAdvanceTimeout set_players set_objects]. rewrite Hpend.
    eexists. split; [reflexivity|]. simpl. by rewrite String.eqb_refl. }
  assert (partyOf w1 sid = Some c) as Hc1.
  { unfold partyOf, w1. simpl. by rewrite lookup_insert_eq, Hc. }
  assert (getParty w1 c = Some (l, jp)) as Hg1.
  { apply getParty_Some. simpl. split; [done|]. apply lookup_insert_eq. }
  pose proof (without_joined sid (JS.trim playerName) party Hroster Hnot)
    as Hwithout. fold jp in Hwithout.
  assert (departed sid jp = set_players (players party) jp) as Hdep.
  { unfold departed. rewrite Hwithout.
    change (deref (set_players (players party) jp)
              (host (set_players (players party) jp)))
      with (deref jp (host party)).
    unfold jp. rewrite deref_joined_old; [|by apply Hroster|done].
    destruct (String.eqb_spec (id (deref party (host party))) sid) as [Hid|];
      [|done].
    destruct Hnot. exists (host party). split; [by apply Hroster|done]. }
  eexists w1, o1, jp, (after_departure sid c l jp w1), _,
    (set_players (players party) jp).
  split_and!; try done.
  - by apply leave_party_departure.
  - apply getParty_Some. simpl. rewrite Hwithout.
    rewrite decide_False by done. split; [done|].
    by rewrite lookup_insert_eq, Hdep.
  - unfold roster. simpl. apply list_fmap_ext. intros i r Hr.
    apply (deref_joined_old sid (JS.trim playerName) party r); [|done].
    by eapply list_elem_of_lookup_2.
  - simpl. rewrite Hwithout. by rewrite decide_False by done.
  - simpl. by rewrite delete_insert_eq.
Qed.

Lemma join_then_leave_witness :
  JS.truthy "1234" = true ∧ JS.trim "Bob" ≠ ""
  ∧ ∃ party,
      getParty (after ann_creates) "1234" = Some (0, party)
      ∧ (length (players party) < 8)%nat
      ∧ pendingAdvanceTimeout party = None
      ∧ ∃ w1 o1 party1 w2 o2 party2,
          join_party "b" "1234" "Bob" (after ann_creates) = Some (w1, o1)
          ∧ replies_to "b" o1 = [joined "b" party1]
          ∧ partyOf w1 "b" = Some "1234"
          ∧ leave_party "b" w1 = Some (w2, o2)
          ∧ getParty w2 "1234" = Some (0, party2)
          ∧ players party2 = players party
          ∧ roster party2 = roster party
          ∧ host party2 = host party
          ∧ gameState party2 = gameState party
          ∧ parties w2 = parties (after ann_creates)
          ∧ playerToParty w2 = delete "b" (playerToParty (after ann_creates))
          ∧ timers w2 = timers (after ann_creates).
Proof.
  split; [reflexivity|]. split; [by vm_compute|].
  eexists. split; [vm_compute; reflexivity|]. split; [simpl; lia|].
  split; [reflexivity|].
  eapply (join_then_leave (after ann_creates) "b" "1234" "Bob" 0).
  - apply reachable_after.
  - reflexivity.
  - by vm_compute.
  - vm_compute. reflexivity.
  - simpl. lia.
  - intros (p & Hp & Hname). vm_compute in Hp.
    apply list_elem_of_singleton in Hp. subst p. by vm_compute in Hname.
  - intros (r & Hr & Hid). vm_compute in Hr.
    apply list_elem_of_singleton in Hr. subst r. by vm_compute in Hid.
  - reflexivity.
Defined.

(** *** Errors that cannot happen *)

Ltac never_replied Hin :=
  first [ by intros [= _ <-]; not_a_failure Hin
        | by intros [= <- <-]; not_a_failure Hin ].

(** X12: in a reachable world an indexed socket is on the roster of a
    registered party, so the guards for a vanished party or player never
    fire: no handler ever answers PlayerNotFound, and only join_party ever
    answers PartyNotFound. *)
Theorem internal_errors_unreachable w e w' outs sid :
  reachable w → step w e = Some (w', outs) →
  (callback sid (failure PlayerNotFound) ∉ outs)
  ∧ ((∀ s c n, e ≠ JoinParty s c n) →
     callback sid (failure PartyNotFound) ∉ outs).
Proof.
  intros Hw Hstep. apply reachable_ok in Hw.
  assert (∀ s c, partyOf w s = Some c →
            ∃ l party r, getParty w c = Some (l, party)
                         ∧ getPlayer party s = Some r) as Hidx.
  { intros s c Hc.
    destruct (ok_indexed _ Hw s c (partyOf_Some _ _ _ Hc))
      as (l & party & Hg & Hid).
    destruct (getPlayer_has_id party s Hid) as [r Hr]. by exists l, party, r. }
  destruct e; simpl in Hstep.
  - split; [|intros _]; intros Hin; revert Hstep;
      unfold create_party, reject; (case_match; [never_replied Hin|]);
      (destruct (generatePartyCode draws w); [|done]); never_replied Hin.
  - split; [|intros Hne; by destruct (Hne sid0 partyCode playerName)].
    intros Hin; revert Hstep; unfold join_party, reject.
    case_match; [never_replied Hin|].
    destruct (getParty w partyCode) as [[l party]|]; [|never_replied Hin].
    case_match; [never_replied Hin|]. case_match; [never_replied Hin|].
    case_match; [done|never_replied Hin].
  - split; [|intros _]; intros Hin; revert Hstep;
      unfold leave_party, reject;
      (destruct (partyOf w sid0) as [c|] eqn:Hc; [|never_replied Hin]);
      destruct (Hidx _ _ Hc) as (l & party & r & -> & _);
      case_match; never_replied Hin.
  - split; [|intros _]; intros Hin; revert Hstep;
      unfold start_game, reject;
      (destruct (partyOf w sid0) as [c|] eqn:Hc; [|never_replied Hin]);
      destruct (Hidx _ _ Hc) as (l & party & r & -> & _);
      (case_match; [never_replied Hin|]);
      destruct qs as [[|q qs]|]; never_replied Hin.
  - split; [|intros _]; intros Hin; revert Hstep;
      unfold buzz, reject;
      (destruct (partyOf w sid0) as [c|]; [|never_replied Hin]);
      (destruct (getParty w c) as [[l party]|]; [|never_replied Hin]);
      (destruct (gameState party) as [gs|]; [|never_replied Hin]);
      (case_match; [never_replied Hin|]);
      (case_match; [never_replied Hin|]);
      case_decide; never_replied Hin.
  - split; [|intros _]; intros Hin; revert Hstep;
      unfold reading_progress; destruct (partyOf w sid0);
      never_replied Hin.
  - split; [|intros _]; intros Hin; revert Hstep;
      unfold answer_typing;
      (destruct (partyOf w sid0) as [c|]; [|never_replied Hin]);
      (destruct (getParty w c) as [[l party]|]; [|never_replied Hin]);
      destruct (getPlayer party sid0); never_replied Hin.
  - split; [|intros _]; intros Hin; revert Hstep;
      unfold submit_answer, reject;
      (destruct (partyOf w sid0) as [c|] eqn:Hc; [|never_replied Hin]);
      destruct (Hidx _ _ Hc) as (l & party & r & -> & ->);
      (destruct (gameState party) as [gs|]; [|never_replied Hin]);
      (case_match; [never_replied Hin|]);
      (destruct isCorrect; [|case_match]); cbn [setTimeout];
      never_replied Hin.
  - split; [|intros _]; intros Hin; revert Hstep;
      unfold next_question;
      (destruct (partyOf w sid0) as [c|];
       [|destruct ack; never_replied Hin]);
      (destruct (getParty w c) as [[l party]|];
       [|destruct ack; never_replied Hin]);
      (destruct (gameState party); [|destruct ack; never_replied Hin]);
      (case_match; [destruct ack; never_replied Hin|]);
      (destruct (advanceToNextQuestion c w) as [[w1 o1]|] eqn:Hadv;
       [|done]); simpl; intros [= _ <-];
      (apply elem_of_app in Hin as [Hin|Hin];
       [by apply (advanceToNextQuestion_no_reply _ _ _ _ _ _ Hadv) in Hin
       |destruct ack; not_a_failure Hin]).
  - split; [|intros _]; intros Hin; revert Hstep;
      unfold disconnect;
      (destruct (partyOf w sid0) as [c|]; [|never_replied Hin]);
      (destruct (getParty w c) as [[l party]|]; [|never_replied Hin]);
      case_match; never_replied Hin.
  - split; [|intros _]; intros Hin; revert Hstep;
      unfold timer_fires;
      (destruct (timers w !! h) as [t|]; [|never_replied Hin]);
      (destruct (action t) as [c|c l];
       [intros Hadv;
        by apply (advanceToNextQuestion_no_reply _ _ _ _ _ _ Hadv) in Hin
       |simpl; never_replied Hin]).
Qed.

Lemma internal_errors_unreachable_witness :
  ∃ w' outs,
    step (after ann_buzzes) (SubmitAnswer "a" false) = Some (w', outs)
    ∧ (callback "a" (failure PlayerNotFound) ∉ outs)
    ∧ (callback "a" (failure PartyNotFound) ∉ outs).
Proof.
  eexists _, _. split; [vm_compute; reflexivity|].
  epose proof (internal_errors_unreachable (after ann_buzzes)
                 (SubmitAnswer "a" false) _ _ "a"
                 (reachable_after ann_buzzes) eq_refl) as [H1 H2].
  split; [exact H1|]. apply H2. done.
Defined.

(** *** Creating a party *)

Lemma all_codes_four_digits :
  forallb (λ n, four_digits (pretty (1000 + N.of_nat n)%N))
    (seq 0 (N.to_nat 9000))
  = true.
Proof. vm_compute. reflexivity. Qed.

Lemma code_four_digits d :
  (d < 9000)%N → four_digits (pretty (1000 + d)%N) = true.
Proof.
  intros Hd. pose proof all_codes_four_digits as Hall.
  rewrite forallb_forall in Hall.
  specialize (Hall (N.to_nat d)). rewrite N2Nat.id in Hall.
  apply Hall, in_seq. lia.
Qed.

(** X13: create_party.  A blank name is refused with InvalidName and
    changes nothing.  Otherwise the code that [generatePartyCode] settles on
    is not yet registered (and is 4 ASCII digits when the draws are below
    9000), and the new party is registered under it as a fresh object whose
    roster is the caller alone, as host with score 0 and the trimmed name,
    with no game state, no questions and question index -1; the caller is
    indexed to the code, and the other registrations, party objects and the
    timers are as they were. *)
Theorem create_party_outcome w sid playerName draws :
  (JS.trim playerName = "" →
   create_party sid playerName draws w = reject w sid InvalidName)
  ∧ (JS.trim playerName ≠ "" →
     ∀ c, generatePartyCode draws w = Some c →
       parties w !! c = None
       ∧ (Forall (λ d, (d < 9000)%N) draws → four_digits c = true)
       ∧ ∃ w' l party,
           create_party sid playerName draws w
           = Some (w', [callback sid (created c sid);
                        emit c (Msg.party_updated c
                                  [mkPlayer sid (JS.trim playerName) 0 true sid]
                                  None)])
           ∧ heap w !! l = None
           ∧ getParty w' c = Some (l, party)
           ∧ code party = c
           ∧ roster party = [mkPlayer sid (JS.trim playerName) 0 true sid]
           ∧ deref party (host party)
             = mkPlayer sid (JS.trim playerName) 0 true sid
           ∧ gameState party = None ∧ questions party = []
           ∧ currentQuestionIndex party = (-1)%Z
           ∧ pendingAdvanceTimeout party = None
           ∧ playerToParty w' = <[sid := c]> (playerToParty w)
           ∧ parties w' = <[c := l]> (parties w)
           ∧ heap w' = <[l := party]> (heap w)
           ∧ timers w' = timers w).
Proof.
  unfold create_party. split.
  - intros ->. by rewrite orb_true_r.
  - intros Hname c Hgen.
    assert (negb (JS.truthy playerName) || (JS.trim playerName =? "") = false)
      as ->.
    { apply orb_false_iff. split; [|by apply String.eqb_neq].
      apply negb_false_iff. destruct (JS.truthy playerName) eqn:Ht; [done|].
      by apply trim_falsy in Ht. }
    rewrite Hgen. split_and!.
    + by eapply generatePartyCode_free.
    + intros Hall. apply generatePartyCode_drawn in Hgen as (d & Hd & ->).
      apply code_four_digits. by apply (proj1 (Forall_forall _ _) Hall).
    + eexists _, _, _. split; [reflexivity|]. split.
      { apply not_elem_of_dom. apply is_fresh. }
      split.
      { apply getParty_Some. simpl. by rewrite !lookup_insert_eq. }
      split_and!; try done.
Qed.

(** *** Parties do not interfere *)

(** X14: an event changes no party object but the one it is about: the
    party the calling socket is indexed to (for join_party the party of the
    requested code, for a timer the party of its closure); create_party only
    adds an object.  No party object is ever removed from memory by a
    handler. *)
Theorem other_parties_untouched w e w' outs l party :
  step w e = Some (w', outs) → heap w !! l = Some party →
  ¬ touches w e l → heap w' !! l = Some party.
Proof.
  intros Hstep Hl Hnot. revert Hstep.
  assert (∀ c l0 party0, getParty w c = Some (l0, party0) →
            parties w !! c ≠ Some l → l0 ≠ l) as Hne.
  { intros c l0 party0 [Hreg _]%getParty_Some Hc. congruence. }
  destruct e; simpl in Hnot |- *.
  - unfold create_party, reject. case_match; [by intros [= <- _]|].
    destruct (generatePartyCode draws w); [|done]. intros [= <- _].
    simpl. rewrite lookup_insert_ne; [done|].
    intros Heq. pose proof (is_fresh (dom (heap w))) as Hfresh.
    rewrite Heq in Hfresh. apply Hfresh, elem_of_dom. eauto.
  - unfold join_party, reject. case_match; [by intros [= <- _]|].
    destruct (getParty w partyCode) as [[l0 party0]|] eqn:Hg;
      [|by intros [= <- _]].
    case_match; [by intros [= <- _]|]. case_match; [by intros [= <- _]|].
    case_match; [done|].
    intros [= <- _]. simpl. rewrite lookup_insert_ne; [done|].
    by eapply Hne.
  - destruct (partyOf w sid) as [c|] eqn:Hc.
    + destruct (getParty w c) as [[l0 party0]|] eqn:Hg.
      * rewrite (leave_party_departure _ _ _ _ _ Hc Hg). intros [= <- _].
        simpl. rewrite lookup_insert_ne; [done|]. eapply Hne; [done|].
        intros Hreg. apply Hnot. by exists c.
      * unfold leave_party, reject. rewrite Hc, Hg. by intros [= <- _].
    + unfold leave_party, reject. rewrite Hc. by intros [= <- _].
  - unfold start_game, reject.
    destruct (partyOf w sid) as [c|] eqn:Hc; [|by intros [= <- _]].
    destruct (getParty w c) as [[l0 party0]|] eqn:Hg; [|by intros [= <- _]].
    case_match; [by intros [= <- _]|].
    destruct qs as [[|q qs]|]; [by intros [= <- _]| |by intros [= <- _]].
    intros [= <- _]. simpl. rewrite lookup_insert_ne; [done|].
    eapply Hne; [done|]. intros Hreg. apply Hnot. by exists c.
  - unfold buzz, reject.
    destruct (partyOf w sid) as [c|] eqn:Hc; [|by intros [= <- _]].
    destruct (getParty w c) as [[l0 party0]|] eqn:Hg; [|by intros [= <- _]].
    destruct (gameState party0) as [gs0|]; [|by intros [= <- _]].
    case_match; [by intros [= <- _]|]. case_match; [by intros [= <- _]|].
    case_decide; [by intros [= <- _]|].
    intros [= <- _]. simpl. rewrite lookup_insert_ne; [done|].
    eapply Hne; [done|]. intros Hreg. apply Hnot. by exists c.
  - unfold reading_progress. destruct (partyOf w sid); by intros [= <- _].
  - unfold answer_typing. destruct (partyOf w sid) as [c|];
      [|by intros [= <- _]].
    destruct (getParty w c) as [[l0 party0]|]; [|by intros [= <- _]].
    destruct (getPlayer party0 sid); by intros [= <- _].
  - unfold submit_answer, reject.
    destruct (partyOf w sid) as [c|] eqn:Hc; [|by intros [= <- _]].
    destruct (getParty w c) as [[l0 party0]|] eqn:Hg; [|by intros [= <- _]].
    destruct (gameState party0) as [gs0|]; [|by intros [= <- _]].
    case_match; [by intros [= <- _]|].
    destruct (getPlayer party0 sid) as [r|]; [|by intros [= <- _]].
    assert (l0 ≠ l) as Hl0.
    { eapply Hne; [done|]. intros Hreg. apply Hnot. by exists c. }
    destruct isCorrect; [|case_match]; cbn [setTimeout]; intros [= <- _];
      simpl; by rewrite lookup_insert_ne.
  - unfold next_question.
    destruct (partyOf w sid) as [c|] eqn:Hc; [|by intros [= <- _]].
    destruct (getParty w c) as [[l0 party0]|] eqn:Hg; [|by intros [= <- _]].
    destruct (gameState party0); [|by intros [= <- _]].
    case_match; [by intros [= <- _]|].
    destruct (advanceToNextQuestion c w) as [[w1 o1]|] eqn:Hadv; [|done].
    simpl. intros [= <- _].
    eapply advanceToNextQuestion_other; [done..|].
    intros Hreg. apply Hnot. by exists c.
  - destruct (partyOf w sid) as [c|] eqn:Hc.
    + destruct (getParty w c) as [[l0 party0]|] eqn:Hg.
      * rewrite (disconnect_departure _ _ _ _ _ Hc Hg). intros [= <- _].
        simpl. rewrite lookup_insert_ne; [done|]. eapply Hne; [done|].
        intros Hreg. apply Hnot. by exists c.
      * unfold disconnect. rewrite Hc, Hg. by intros [= <- _].
    + unfold disconnect. rewrite Hc. by intros [= <- _].
  - unfold timer_fires.
    destruct (timers w !! h) as [t|] eqn:Hh; [|by intros [= <- _]].
    destruct (action t) as [c|c l0] eqn:Hact.
    + intros Hadv.
      eapply (advanceToNextQuestion_other c (clearTimeout h w)); [done..|].
      intros Hreg. apply Hnot. exists t. by rewrite Hact.
    + simpl. intros [= <- _]. simpl. rewrite lookup_alter_ne; [done|].
      intros ->. apply Hnot. exists t. by rewrite Hact.
Qed.

Lemma other_parties_untouched_witness :
  ∃ party w' outs,
    heap (after code_reused) !! 0 = Some party
    ∧ step (after code_reused) (LeaveParty "b") = Some (w', outs)
    ∧ ¬ touches (after code_reused) (LeaveParty "b") 0
    ∧ heap w' !! 0 = Some party.
Proof.
  eexists _, _, _. split; [vm_compute; reflexivity|].
  split; [vm_compute; reflexivity|].
  assert (¬ touches (after code_reused) (LeaveParty "b") 0) as Hnot.
  { intros (c & Hc & Hreg). vm_compute in Hc. injection Hc as <-.
    by vm_compute in Hreg. }
  split; [exact Hnot|].
  eapply (other_parties_untouched (after code_reused) (LeaveParty "b")).
  - vm_compute. reflexivity.
  - vm_compute. reflexivity.
  - exact Hnot.
Defined.

(** *** Answers without a question *)

(** X15: the handlers never look at the status or at the bounds of the
    question index.  When the recorded buzzer answers correctly while there
    is no current question (the index is past the last question, as in a
    finished game), the question length counts as 1: the answer is accepted
    and scores 15 when the stored buzz point is not positive, 10 otherwise. *)
Theorem answer_without_question w sid c l party gs :
  reachable w → partyOf w sid = Some c → getParty w c = Some (l, party) →
  gameState party = Some gs → buzzedPlayerId gs = Some sid →
  JS.index (questions party) (currentQuestionIndex party) = None →
  ∃ r w' outs party',
    getPlayer party sid = Some r
    ∧ submit_answer sid true w = Some (w', outs)
    ∧ replies_to sid outs = [success]
    ∧ getParty w' c = Some (l, party')
    ∧ score (deref party' r)
      = (score (deref party r)
         + if (buzzPoint gs <=? 0)%Z then 15 else 10)%Z.
Proof.
  intros Hw Hc Hg Hgs Hbuzz Hnone. apply reachable_ok in Hw.
  destruct (ok_indexed _ Hw sid c (partyOf_Some _ _ _ Hc))
    as (l0 & party0 & Hg0 & Hid).
  rewrite Hg in Hg0. injection Hg0 as <- <-.
  destruct (getPlayer_has_id party sid Hid) as [r Hr].
  destruct (submit_correct_step w sid c l party gs r)
    as (w1 & o1 & party1 & gs1 & Hstep & Hrep & _ & Hg1 & _ & _ & _ & _ & _
        & _ & Hscore); try done.
  exists r, w1, o1, party1. split_and!; try done.
  rewrite Hscore, spec_points_correct. f_equal.
  unfold currentQuestionLength.
  rewrite <- index_currentQuestion, Hnone.
  destruct (Z.ltb_spec (2 * buzzPoint gs) (Z.max 1 0)),
    (Z.leb_spec (buzzPoint gs) 0); lia.
Qed.

Lemma answer_without_question_witness :
  ∃ party gs,
    getParty (after buzz_after_finish) "1234" = Some (0, party)
    ∧ gameState party = Some gs
    ∧ status gs = finished
    ∧ buzzedPlayerId gs = Some "a"
    ∧ ∃ r w' outs party',
        getPlayer party "a" = Some r
        ∧ submit_answer "a" true (after buzz_after_finish) = Some (w', outs)
        ∧ replies_to "a" outs = [success]
        ∧ getParty w' "1234" = Some (0, party')
        ∧ score (deref party' r)
          = (score (deref party r)
             + if (buzzPoint gs <=? 0)%Z then 15 else 10)%Z.
Proof.
  eexists _, _. split; [vm_compute; reflexivity|].
  split; [reflexivity|]. split; [reflexivity|]. split; [reflexivity|].
  eapply (answer_without_question (after buzz_after_finish) "a" "1234" 0).
  - apply reachable_after.
  - vm_compute. reflexivity.
  - vm_compute. reflexivity.
  - reflexivity.
  - reflexivity.
  - reflexivity.
Defined.

(** *** Roster size and names *)

Lemma names_ext party party' :
  players party' = players party →
  (∀ r, name (objects party' !!! r) = name (objects party !!! r)) →
  names party' = names party.
Proof.
  intros Hp Hn. unfold names, roster. rewrite Hp, <-!list_fmap_compose.
  apply list_fmap_ext. intros i r _. simpl. unfold deref. by rewrite Hn.
Qed.

Lemma names_perm party party' :
  objects party' = objects party → players party' ≡ₚ players party →
  names party' ≡ₚ names party.
Proof.
  intros Ho Hp. unfold names, roster, deref. by rewrite Ho, Hp.
Qed.

Lemma name_alter (f : Player → Player) r (o : gmap nat Player) r' :
  (∀ x, name (f x) = name x) → name (alter f r o !!! r') = name (o !!! r').
Proof.
  intros Hn. rewrite !lookup_total_alt, lookup_alter.
  destruct (decide (r = r')) as [->|]; [|done].
  destruct (o !! r') as [x|]; simpl; [apply Hn|done].
Qed.

Lemma name_reset_scores party r :
  name (reset_scores party !!! r) = name (objects party !!! r).
Proof.
  unfold reset_scores. generalize (objects party) as o.
  induction (players party) as [|a l IH]; intros o; simpl; [done|].
  rewrite IH. by apply name_alter.
Qed.

Lemma names_departed sid party :
  names (departed sid party) ⊆+ names party.
Proof.
  apply sublist_submseteq. unfold names, roster.
  rewrite <-!list_fmap_compose, players_departed.
  assert (((λ p, JS.toLowerCase (name p)) ∘ deref (departed sid party))
            <$> without sid party
          = ((λ p, JS.toLowerCase (name p)) ∘ deref party)
              <$> without sid party) as ->.
  { apply list_fmap_ext. intros i r _. simpl.
    unfold departed, assign_new_host, deref. simpl.
    destruct (String.eqb _ sid); [|done].
    destruct (without sid party); [done|]. simpl. by rewrite name_alter. }
  apply fmap_sublist. unfold without. apply sublist_filter.
Qed.

Lemma names_joined sid nm party :
  roster_ok party →
  names (joined_party sid nm party) = names party ++ [JS.toLowerCase nm].
Proof.
  intros Hok. unfold names. by rewrite roster_joined, fmap_app.
Qed.

Lemma names_length party : length (names party) = length (players party).
Proof. unfold names, roster. by rewrite !length_fmap. Qed.

Lemma advanceToNextQuestion_names c w w' outs l p' :
  advanceToNextQuestion c w = Some (w', outs) → heap w' !! l = Some p' →
  ∃ p, heap w !! l = Some p ∧ names p' ⊆+ names p.
Proof.
  unfold advanceToNextQuestion. intros Hadv Hl.
  destruct (getParty w c) as [[l0 party0]|] eqn:Hg;
    [|injection Hadv as <- _; by eauto].
  apply getParty_Some in Hg as [_ Hheap].
  assert (∀ w1 party3,
            w' = store l0 party3 w1 → heap w1 = heap w →
            names party3 ⊆+ names party0 →
            ∃ p, heap w !! l = Some p ∧ names p' ⊆+ names p) as Hcase.
  { intros w1 party3 -> Hw1 Hsub. simpl in Hl. rewrite Hw1 in Hl.
    apply lookup_insert_Some in Hl as [[<- <-]|[_ Hl]]; by eauto. }
  revert Hadv.
  destruct (pendingAdvanceTimeout party0); simpl;
    (destruct (gameState party0); [|done]); case_match; intros [= Hw' _];
    (eapply Hcase; [symmetry; exact Hw'|reflexivity|]);
    try done;
    (apply Permutation_submseteq, names_perm;
     [reflexivity|apply sort_by_score_perm]).
Qed.

Lemma names_step w e w' outs l p' :
  world_ok w → step w e = Some (w', outs) → heap w' !! l = Some p' →
  (∃ n, names p' = [n])
  ∨ ∃ p, heap w !! l = Some p
         ∧ (names p' ⊆+ names p
            ∨ ((length (players p) < 8)%nat
               ∧ ∃ n, (n ∉ names p) ∧ names p' = names p ++ [n])).
Proof.
  intros Hw Hstep Hl.
  assert (∀ l0 party0 party1 hp,
            heap w !! l0 = Some party0 → hp = <[l0 := party1]> (heap w) →
            hp !! l = Some p' → names party1 ⊆+ names party0 →
            ∃ p, heap w !! l = Some p ∧ names p' ⊆+ names p) as Hcase.
  { intros l0 party0 party1 hp H0 -> H1 Hsub.
    apply lookup_insert_Some in H1 as [[<- <-]|[_ H1]]; by eauto. }
  assert (∀ w0, heap w0 = heap w → Some (w0, outs) = Some (w', outs) →
            ∃ p, heap w !! l = Some p ∧ names p' ⊆+ names p) as Hsame.
  { intros w0 H0 [= <-]. rewrite H0 in Hl. by eauto. }
  revert Hstep. destruct e; simpl.
  - unfold create_party, reject. case_match.
    { intros [= <- <-]. right. destruct (Hsame w) as (p & ? & ?); by eauto. }
    destruct (generatePartyCode draws w); [|done]. intros [= <- _].
    simpl in Hl. apply lookup_insert_Some in Hl as [[_ <-]|[_ Hl]].
    + left. by eexists.
    + right. by eauto.
  - unfold join_party, reject. case_match.
    { intros [= <- _]. right. by eauto. }
    destruct (getParty w partyCode) as [[l0 party0]|] eqn:Hg;
      [|intros [= <- _]; right; by eauto].
    destruct (Nat.leb_spec 8 (length (players party0))).
    { intros [= <- _]. right. by eauto. }
    destruct (existsb _ (roster party0)) eqn:Hex.
    { intros [= <- _]. right. by eauto. }
    case_match; [done|].
    intros [= <- _]. simpl in Hl. right.
    apply getParty_Some in Hg as [_ Hheap].
    apply lookup_insert_Some in Hl as [[<- <-]|[_ Hl]]; [|by eauto].
    exists party0. split; [done|]. right. split; [done|].
    exists (JS.toLowerCase (JS.trim playerName)). split.
    + intros (p & Heq & Hp)%list_elem_of_fmap.
      assert (existsb (λ p, JS.toLowerCase (name p)
                            =? JS.toLowerCase (JS.trim playerName))
                (roster party0) = true) as Htrue; [|congruence].
      apply existsb_exists. exists p. split; [by apply list_elem_of_In|].
      by apply String.eqb_eq.
    + apply (names_joined sid (JS.trim playerName) party0).
      by apply (ok_heap _ Hw l0).
  - intros Hstep; right; revert Hstep. destruct (partyOf w sid) as [c|] eqn:Hc.
    + destruct (getParty w c) as [[l0 party0]|] eqn:Hg.
      * rewrite (leave_party_departure _ _ _ _ _ Hc Hg). intros [= <- _].
        apply getParty_Some in Hg as [_ Hheap].
        destruct (Hcase l0 party0 (departed sid party0) _ Hheap eq_refl Hl)
          as (p & ? & ?); [apply names_departed|by eauto].
      * unfold leave_party, reject. rewrite Hc, Hg. intros [= <- _]. by eauto.
    + unfold leave_party, reject. rewrite Hc. intros [= <- _]. by eauto.
  - intros Hstep; right; revert Hstep. unfold start_game, reject.
    destruct (partyOf w sid) as [c|] eqn:Hc; [|intros [= <- _]; by eauto].
    destruct (getParty w c) as [[l0 party0]|] eqn:Hg;
      [|intros [= <- _]; by eauto].
    case_match; [intros [= <- _]; by eauto|].
    destruct qs as [[|q qs]|]; [intros [= <- _]; by eauto|
                                |intros [= <- _]; by eauto].
    intros [= <- _]. apply getParty_Some in Hg as [_ Hheap].
    edestruct (Hcase l0 party0) as (p & ? & ?); [done|reflexivity|exact Hl|
                                                 |by eauto].
    erewrite names_ext; [done|done|]. intros r. simpl.
    by rewrite name_reset_scores.
  - intros Hstep; right; revert Hstep. unfold buzz, reject.
    destruct (partyOf w sid) as [c|] eqn:Hc; [|intros [= <- _]; by eauto].
    destruct (getParty w c) as [[l0 party0]|] eqn:Hg;
      [|intros [= <- _]; by eauto].
    destruct (gameState party0) as [gs0|]; [|intros [= <- _]; by eauto].
    case_match; [intros [= <- _]; by eauto|].
    case_match; [intros [= <- _]; by eauto|].
    case_decide; [intros [= <- _]; by eauto|].
    intros [= <- _]. apply getParty_Some in Hg as [_ Hheap].
    edestruct (Hcase l0 party0) as (p & ? & ?); [done|reflexivity|exact Hl|
                                                 |by eauto].
    done.
  - intros Hstep; right; revert Hstep. unfold reading_progress.
    destruct (partyOf w sid); intros [= <- _]; by eauto.
  - intros Hstep; right; revert Hstep. unfold answer_typing.
    destruct (partyOf w sid) as [c|]; [|intros [= <- _]; by eauto].
    destruct (getParty w c) as [[l0 party0]|]; [|intros [= <- _]; by eauto].
    destruct (getPlayer party0 sid); intros [= <- _]; by eauto.
  - intros Hstep; right; revert Hstep. unfold submit_answer, reject.
    destruct (partyOf w sid) as [c|] eqn:Hc; [|intros [= <- _]; by eauto].
    destruct (getParty w c) as [[l0 party0]|] eqn:Hg;
      [|intros [= <- _]; by eauto].
    destruct (gameState party0) as [gs0|]; [|intros [= <- _]; by eauto].
    case_match; [intros [= <- _]; by eauto|].
    destruct (getPlayer party0 sid) as [r|]; [|intros [= <- _]; by eauto].
    apply getParty_Some in Hg as [_ Hheap].
    destruct isCorrect; [|case_match]; cbn [setTimeout]; intros [= <- _];
      (edestruct (Hcase l0 party0) as (p & ? & ?);
       [done|reflexivity|exact Hl| |by eauto]);
      (erewrite names_ext; [done|done|]); intros r'; simpl;
      by apply name_alter.
  - intros Hstep; right; revert Hstep. unfold next_question.
    destruct (partyOf w sid) as [c|] eqn:Hc; [|intros [= <- _]; by eauto].
    destruct (getParty w c) as [[l0 party0]|] eqn:Hg;
      [|intros [= <- _]; by eauto].
    destruct (gameState party0); [|intros [= <- _]; by eauto].
    case_match; [intros [= <- _]; by eauto|].
    destruct (advanceToNextQuestion c w) as [[w1 o1]|] eqn:Hadv; [|done].
    simpl. intros [= <- _].
    destruct (advanceToNextQuestion_names _ _ _ _ _ _ Hadv Hl)
      as (p & ? & ?). by eauto.
  - intros Hstep; right; revert Hstep. destruct (partyOf w sid) as [c|] eqn:Hc.
    + destruct (getParty w c) as [[l0 party0]|] eqn:Hg.
      * rewrite (disconnect_departure _ _ _ _ _ Hc Hg). intros [= <- _].
        apply getParty_Some in Hg as [_ Hheap].
        destruct (Hcase l0 party0 (departed sid party0) _ Hheap eq_refl Hl)
          as (p & ? & ?); [apply names_departed|by eauto].
      * unfold disconnect. rewrite Hc, Hg. intros [= <- _]. by eauto.
    + unfold disconnect. rewrite Hc. intros [= <- _]. by eauto.
  - intros Hstep; right; revert Hstep. unfold timer_fires.
    destruct (timers w !! h) as [t|] eqn:Hh; [|intros [= <- _]; by eauto].
    destruct (action t) as [c|c l0] eqn:Hact.
    + intros Hadv.
      destruct (advanceToNextQuestion_names _ _ _ _ _ _ Hadv Hl)
        as (p & ? & ?). by eauto.
    + simpl. intros [= <- _]. simpl in Hl.
      apply lookup_alter_Some in Hl as [(_ & p & Hp & ->)|[_ Hl]]; by eauto.
Qed.

(** X16: in every reachable world a party never holds more than 8 players,
    and no two players of a party have the same name up to letter case,
    whatever sequence of joins, departures, games and sorts led there. *)
Theorem party_limits w l party :
  reachable w → heap w !! l = Some party →
  (length (roster party) ≤ 8)%nat ∧ NoDup (names party).
Proof.
  intros Hw. revert l party.
  induction Hw as [|w e w' outs Hw IH Hstep]; intros l party Hl.
  { simpl in Hl. by rewrite lookup_empty in Hl. }
  assert (∀ p : Party, length (roster p) = length (names p)) as Hlen.
  { intros p. unfold names. by rewrite length_fmap. }
  rewrite Hlen.
  destruct (names_step _ _ _ _ _ _ (reachable_ok _ Hw) Hstep Hl)
    as [[n ->]|(p & Hp & [Hsub|(Hlt & n & Hn & ->)])].
  - split; [simpl; lia|apply NoDup_singleton].
  - destruct (IH _ _ Hp) as [H8 Hnd]. rewrite Hlen in H8. split.
    + apply submseteq_length in Hsub. lia.
    + apply submseteq_Permutation in Hsub as [k Hk]. rewrite Hk in Hnd.
      by apply NoDup_app in Hnd as [? _].
  - destruct (IH _ _ Hp) as [_ Hnd]. split.
    + rewrite length_app, names_length. simpl. lia.
    + apply NoDup_app. split_and!; [done| |apply NoDup_singleton].
      intros x Hx ->%list_elem_of_singleton. done.
Qed.

Lemma party_limits_witness :
  ∃ party,
    heap (after eight_players) !! 0 = Some party
    ∧ length (roster party) = 8%nat
    ∧ (length (roster party) ≤ 8)%nat ∧ NoDup (names party).
Proof.
  eexists. split; [vm_compute; reflexivity|]. split; [reflexivity|].
  eapply (party_limits (after eight_players) 0).
  - apply reachable_after.
  - vm_compute. reflexivity.
Defined.
